(** * gofeed: the state watcher, its repository and the HTTP processor

    A shallow embedding of the Go packages [internal/state] and
    [internal/processors/httprocessor].  Go's [int] is the 64-bit machine
    integer of the amd64 build; it is carried as a [Z] and every [++] and
    [--] of the source is written with its wrap-around.  Pointers to models
    ([*Item], [*Partition]) are owned by one goroutine at a time, so a
    method that mutates its receiver is a function returning the new value.
    Timestamps are instants on the integer line. *)

From Stdlib Require Import ZArith Lia List Bool.
From stdpp Require Import gmap strings list.

Local Open Scope Z_scope.

(** ** Go's [int] *)

Module GoInt.

Definition int_min : Z := - 2 ^ 63.
Definition int_max : Z := 2 ^ 63 - 1.

(** The values an [int] variable can hold. *)
Definition is_int (z : Z) : Prop := int_min <= z <= int_max.

(** Two's-complement reduction of an exact result. *)
Definition wrap (z : Z) : Z := (z + 2 ^ 63) mod 2 ^ 64 - 2 ^ 63.

(** [x++] and [x--]. *)
Definition incr (z : Z) : Z := wrap (z + 1).
Definition decr (z : Z) : Z := wrap (z - 1).

End GoInt.

(** ** Package [state] *)

Module state.

Import GoInt.

(** [type Status int64] with its four constants. *)
Inductive Status : Type := Unknown | Available | Complete | Failed.

#[global] Instance Status_eq_dec : EqDecision Status.
Proof. solve_decision. Defined.

Definition Status_to_nat (s : Status) : nat :=
  match s with Unknown => 0 | Available => 1 | Complete => 2 | Failed => 3 end%nat.

Definition Status_of_nat (n : nat) : option Status :=
  match n with
  | 0 => Some Unknown | 1 => Some Available | 2 => Some Complete | 3 => Some Failed
  | _ => None
  end%nat.

#[global] Instance Status_countable : Countable Status.
Proof.
  apply (inj_countable Status_to_nat Status_of_nat). now intros [].
Defined.

Definition Status_String (e : Status) : string :=
  match e with
  | Available => "Available"
  | Complete => "Complete"
  | Failed => "Failed"
  | Unknown => "Unknown"
  end.

(** *** Errors

    The values of Go's [error] that the two packages build: [errors.New]
    and [fmt.Errorf] without [%w] give a plain message, [NonRetryableError]
    the package's own marker, [fmt.Errorf] with [%w] a message around an
    inner error. *)
Inductive error : Type :=
| errorString (msg : string)
| nonRetryableError (msg : string)
| wrapError (msg : string) (inner : error).

Definition NonRetryableError (s : string) : error := nonRetryableError s.

(** The [Error()] method. *)
Definition Error (e : error) : string :=
  match e with
  | errorString msg | nonRetryableError msg | wrapError msg _ => msg
  end.

(** [errors.As(e, &t)] for [t *nonRetryableError]: the first error of the
    [Unwrap] chain that has the type. [nonRetryableError] has no [Unwrap]. *)
Fixpoint As_nonRetryable (e : error) : bool :=
  match e with
  | errorString _ => false
  | nonRetryableError _ => true
  | wrapError _ inner => As_nonRetryable inner
  end.

Definition IsRetryable (e : error) : bool := negb (As_nonRetryable e).

(** *** Models *)

(** [BaseModel]; the two timestamps the ORM maintains are not carried. *)
Record BaseModel : Type := mkBaseModel {
  ID : string;
  Version : Z;
}.

(** The [Model] interface. *)
Class Model (A : Type) : Type := {
  GetID : A -> string;
  GetVersion : A -> Z;
  IncrementVersion : A -> A;
  DecrementVersion : A -> A;
}.

Definition BaseModel_IncrementVersion (m : BaseModel) : BaseModel :=
  {| ID := ID m; Version := incr (Version m) |}.

Definition BaseModel_DecrementVersion (m : BaseModel) : BaseModel :=
  {| ID := ID m; Version := decr (Version m) |}.

Record Item : Type := mkItem {
  Item_Base : BaseModel;
  RetryCount : Z;
  PartitionID : string;
  Item_Gate : Z;
  Item_Status : Status;
  ErrorMessages : string;
  Data : list Byte.byte;
}.

Record Partition : Type := mkPartition {
  Partition_Base : BaseModel;
  Gate : Z;
  Partition_Status : Status;
  Owner : string;
  Until : Z;
}.

Definition Item_with_Base (b : BaseModel) (i : Item) : Item :=
  mkItem b (RetryCount i) (PartitionID i) (Item_Gate i) (Item_Status i)
         (ErrorMessages i) (Data i).

Definition Partition_with_Base (b : BaseModel) (p : Partition) : Partition :=
  mkPartition b (Gate p) (Partition_Status p) (Owner p) (Until p).

#[global] Instance Item_Model : Model Item := {|
  GetID i := ID (Item_Base i);
  GetVersion i := Version (Item_Base i);
  IncrementVersion i := Item_with_Base (BaseModel_IncrementVersion (Item_Base i)) i;
  DecrementVersion i := Item_with_Base (BaseModel_DecrementVersion (Item_Base i)) i;
|}.

#[global] Instance Partition_Model : Model Partition := {|
  GetID p := ID (Partition_Base p);
  GetVersion p := Version (Partition_Base p);
  IncrementVersion p :=
    Partition_with_Base (BaseModel_IncrementVersion (Partition_Base p)) p;
  DecrementVersion p :=
    Partition_with_Base (BaseModel_DecrementVersion (Partition_Base p)) p;
|}.

(** *** [Item.error] *)

Definition newline : string := String (Ascii.ascii_of_nat 10) EmptyString.

(** [fmt.Sprintf("%s\n%s", a, b)]. *)
Definition Sprintf_lines (a b : string) : string := a +:+ newline +:+ b.

Section ItemError.

(** The package variable [MaxRetries] (5 by default, 3 in the tests, -1 to
    retry for ever). *)
Variable MaxRetries : Z.

Definition Item_error (i : Item) (err : error) : Item :=
  let retryCount := incr (RetryCount i) in
  let errorMessages :=
    if decide (ErrorMessages i = EmptyString) then Error err
    else if decide (ErrorMessages i <> Error err)
         then Sprintf_lines (ErrorMessages i) (Error err)
         else ErrorMessages i in
  let status :=
    if negb (IsRetryable err) || ((retryCount >? MaxRetries) && (MaxRetries >=? 0))
    then Failed else Item_Status i in
  mkItem (Item_Base i) retryCount (PartitionID i) (Item_Gate i) status
         errorMessages (Data i).

(** A run of failed dispatches of one item, oldest first. *)
Definition Item_errors (i : Item) (errs : list error) : Item :=
  fold_left Item_error errs i.

End ItemError.

(** *** [Partition] *)

(** [Expired]: [p.Until.Before(time.Now())]; [now] is the clock's reading. *)
Definition Partition_Expired (p : Partition) (now : Z) : bool := Until p <? now.

Definition Partition_Active (p : Partition) (now : Z) : bool :=
  bool_decide (Partition_Status p = Available) && negb (Partition_Expired p now).

(** Modelled from the spec: [watchPartition] calls [p.InActive()], a method
    the sources at hand do not define.  The spec reads the call as "P is no
    longer active (status is not Available or lease expired)", the negation
    of [Active]. *)
Definition Partition_InActive (p : Partition) (now : Z) : bool :=
  negb (Partition_Active p now).

(** *** The repository

    A table is a finite map from primary key to row.  [GormRepo.Save] hands
    the model to the ORM (gorm.io/gorm v1.20.11, fixed by go.mod) as
    [db.Clauses(Where version = ?).Save(m)].  The ORM is not part of the
    repository; its effect on a table is written out here as that release
    performs it:
    - a model whose primary key is the zero value is INSERTed;
    - otherwise every column is UPDATEd where the primary key and the extra
      condition [version = ?] hold;
    - when the UPDATE touched no row, the record is looked up under the same
      conditions and, not being found, is INSERTed; the primary-key
      constraint rejects the INSERT when a row with that key exists.
    [fault] is a failure of the database itself (time-out, lost connection,
    locked file): the call reports it and writes nothing. *)

Section Repo.

Context {A : Type} `{Model A}.

Definition gorm_Create (db : gmap string A) (m : A) : gmap string A * option error :=
  match db !! GetID m with
  | Some _ => (db, Some (errorString "UNIQUE constraint failed"))
  | None => (<[GetID m := m]> db, None)
  end.

Definition gorm_Save (db : gmap string A) (fault : option error)
    (version : Z) (m : A) : gmap string A * option error :=
  match fault with
  | Some e => (db, Some e)
  | None =>
      if decide (GetID m = EmptyString) then gorm_Create db m
      else match db !! GetID m with
           | Some row =>
               if decide (GetVersion row = version)
               then (<[GetID m := m]> db, None)
               else gorm_Create db m
           | None => gorm_Create db m
           end
  end.

(** [GormRepo.Save]: the table after the call, the model after the call and
    the boolean returned. *)
Definition GormRepo_Save (db : gmap string A) (fault : option error) (m : A)
    : gmap string A * A * bool :=
  let version := GetVersion m in
  let m := IncrementVersion m in
  match gorm_Save db fault version m with
  | (db', Some _) => (db', DecrementVersion m, false)
  | (db', None) => (db', m, true)
  end.

End Repo.

(** [GormRepo.GetPotentialLeases]: the rows of the partitions table that
    satisfy [status != Complete AND until < now]. *)
Definition lease_candidate (now : Z) (p : Partition) : Prop :=
  Partition_Status p <> Complete /\ Until p < now.

#[global] Instance lease_candidate_dec now p : Decision (lease_candidate now p).
Proof. unfold lease_candidate. apply _. Defined.

Definition GormRepo_GetPotentialLeases (db : gmap string Partition)
    (fault : option error) (now : Z) : list Partition * option error :=
  match fault with
  | Some e => ([], Some e)
  | None => (filter (lease_candidate now) (map_to_list db).*2, None)
  end.

(** *** The watcher *)

Record Watcher : Type := mkWatcher {
  OwnerID : string;
  BatchSize : Z;
  PollInterval : Z;
  ManualCheckpoint : bool;
  AutoClose : bool;
  LeaseInterval : Z;
  LeaseDuration : Z;
}.

(** A buffered channel of items: [make(chan *Item, n)] panics on a negative
    size; a send proceeds only while the buffer has room, a receive only
    while it holds an item. *)
Record chan : Type := mkChan {
  chan_buf : list Item;
  chan_cap : Z;
  chan_closed : bool;
}.

Definition make_chan (n : Z) : option chan :=
  if n <? 0 then None else Some (mkChan [] n false).

Definition chan_len (c : chan) : Z := Z.of_nat (length (chan_buf c)).

Definition chan_send (c : chan) (i : Item) : option chan :=
  if chan_len c <? chan_cap c
  then Some (mkChan (chan_buf c ++ [i]) (chan_cap c) (chan_closed c))
  else None.

Definition chan_recv (c : chan) : option (Item * chan) :=
  match chan_buf c with
  | i :: rest => Some (i, mkChan rest (chan_cap c) (chan_closed c))
  | [] => None
  end.

Definition chan_close (c : chan) : chan :=
  mkChan (chan_buf c) (chan_cap c) true.

Section Start.

(** Package variables (one second, thirty seconds and [false] by default;
    durations count nanoseconds). *)
Variable DefaultPollInterval : Z.
Variable MinLeaseDuration : Z.
Variable OverrideMinLeaseDuration : bool.

(** The defaults [Start] fills in; [fresh_uuid] is what [uuid.New()] gives. *)
Definition Watcher_defaults (fresh_uuid : string) (w : Watcher) : Watcher :=
  let pollInterval :=
    if PollInterval w =? 0 then DefaultPollInterval else PollInterval w in
  let batchSize := if BatchSize w =? 0 then 10 else BatchSize w in
  let ownerID :=
    if decide (OwnerID w = EmptyString) then fresh_uuid else OwnerID w in
  let leaseInterval :=
    if LeaseInterval w =? 0 then wrap (2 * pollInterval) else LeaseInterval w in
  let leaseDuration :=
    if LeaseDuration w =? 0 then wrap (2 * leaseInterval) else LeaseDuration w in
  let leaseDuration :=
    if (leaseDuration <? MinLeaseDuration) && negb OverrideMinLeaseDuration
    then MinLeaseDuration else leaseDuration in
  mkWatcher ownerID batchSize pollInterval (ManualCheckpoint w) (AutoClose w)
            leaseInterval leaseDuration.

(** [Start] up to the call of [watch]: the configured watcher and its item
    queue, or nothing when [make] panics. *)
Definition Watcher_Start (fresh_uuid : string) (w : Watcher)
    : option (Watcher * chan) :=
  let w := Watcher_defaults fresh_uuid w in
  match make_chan (BatchSize w) with
  | Some q => Some (w, q)
  | None => None
  end.

End Start.

(** [counts[s]] on a Go map: zero for a missing key. *)
Definition count_of (counts : gmap Status Z) (s : Status) : Z :=
  default 0 (counts !! s).

Definition Partition_set_Status (s : Status) (p : Partition) : Partition :=
  mkPartition (Partition_Base p) (Gate p) s (Owner p) (Until p).

Definition Partition_set_Gate (g : Z) (p : Partition) : Partition :=
  mkPartition (Partition_Base p) g (Partition_Status p) (Owner p) (Until p).

Definition Partition_set_lease (owner : string) (until : Z) (p : Partition)
    : Partition :=
  mkPartition (Partition_Base p) (Gate p) (Partition_Status p) owner until.

(** [watchPartition], the status and gate computed from the fetched items
    and the counts. *)
Definition watch_update (w : Watcher) (p : Partition) (items : list Item)
    (counts : gmap Status Z) : Partition :=
  if count_of counts Failed >? 0 then
    Partition_set_Status Failed p
  else if count_of counts Available >? 0 then
    let p := Partition_set_Status Available p in
    if (length items =? 0)%nat && negb (ManualCheckpoint w)
    then Partition_set_Gate (incr (Gate p)) p
    else p
  else
    if (length items =? 0)%nat && AutoClose w
    then Partition_set_Status Complete p
    else p.

(** [p.Owner = w.OwnerID; p.Until = time.Now().Add(w.LeaseDuration)]. *)
Definition watch_stamp (w : Watcher) (now : Z) (p : Partition) : Partition :=
  Partition_set_lease (OwnerID w) (now + LeaseDuration w) p.

(** What one pass through the loop of [watchPartition] meets: the answers of
    the two queries, the two readings of the clock, the database's fault on
    the save (if any), and the case of the [select] that fires. *)
Inductive select_case : Type := TickerFired | ContextDone.

Record tick_env : Type := mkTickEnv {
  fetched : list Item + error;
  counted : gmap Status Z + error;
  now_stamp : Z;
  save_fault : option error;
  now_check : Z;
  wakeup : select_case;
}.

(** The body of the loop up to the [select]: either a [return], or the
    fetched items sent to the queue. *)
Inductive body_outcome : Type :=
| Returned
| Enqueued (items : list Item).

Definition watch_body (w : Watcher) (db : gmap string Partition)
    (p : Partition) (env : tick_env)
    : gmap string Partition * Partition * body_outcome :=
  match fetched env with
  | inr _ => (db, p, Returned)
  | inl items =>
      match counted env with
      | inr _ => (db, p, Returned)
      | inl counts =>
          let p := watch_stamp w (now_stamp env) (watch_update w p items counts) in
          let '(db, p, ok) := GormRepo_Save db (save_fault env) p in
          if negb ok then (db, p, Returned)
          else if Partition_InActive p (now_check env) then (db, p, Returned)
          else (db, p, Enqueued items)
      end
  end.

(** The state a watcher goroutine shares or leaves behind: the partitions
    table, the worker's [leases] map, the items it has sent so far, and
    whether it is still in its loop. *)
Record watch_state : Type := mkWatchState {
  ws_db : gmap string Partition;
  ws_leases : gmap string Partition;
  ws_partition : Partition;
  ws_sent : list Item;
  ws_running : bool;
}.

(** [watchPartition] over the environments of its successive passes.  When
    the environments run out the goroutine is still in its loop; on any
    [return] the deferred function removes the partition from [leases]. *)
Fixpoint watchPartition (w : Watcher) (db leases : gmap string Partition)
    (p : Partition) (sent : list Item) (envs : list tick_env) : watch_state :=
  match envs with
  | [] => mkWatchState db leases p sent true
  | env :: envs =>
      match watch_body w db p env with
      | (db, p', Returned) =>
          mkWatchState db (delete (GetID p') leases) p' sent false
      | (db, p', Enqueued items) =>
          match wakeup env with
          | TickerFired => watchPartition w db leases p' (sent ++ items) envs
          | ContextDone =>
              mkWatchState db (delete (GetID p') leases) p' (sent ++ items) false
          end
      end
  end.

(** One round of [acquireLeases]: the partitions offered that are not in
    [leases] are entered there and get a watcher each. *)
Definition acquire_one (acc : gmap string Partition * list Partition)
    (p : Partition) : gmap string Partition * list Partition :=
  let '(leases, spawned) := acc in
  match leases !! GetID p with
  | Some _ => (leases, spawned)
  | None => (<[GetID p := p]> leases, spawned ++ [p])
  end.

Definition acquireLeases_round (db : gmap string Partition)
    (fault : option error) (now : Z) (leases : gmap string Partition)
    : gmap string Partition * list Partition :=
  let '(partitions, _) := GormRepo_GetPotentialLeases db fault now in
  fold_left acquire_one partitions (leases, []).

(** *** The dispatcher *)

Record ProcessorResponse : Type := mkProcessorResponse {
  NextGate : Z;
  Resp_Complete : bool;
  Resp_Data : list Byte.byte;
}.

Definition Item_set_Status (s : Status) (i : Item) : Item :=
  mkItem (Item_Base i) (RetryCount i) (PartitionID i) (Item_Gate i) s
         (ErrorMessages i) (Data i).

Section Dispatch.

Variable MaxRetries : Z.

(** The processor as [processItem] calls it, [w.Process(i.ID, i.Data)]. *)
Variable Process : string -> list Byte.byte -> ProcessorResponse + error.

(** [processItem] before its deferred save. *)
Definition processItem_body (i : Item) : Item :=
  match Process (GetID i) (Data i) with
  | inr err => Item_error MaxRetries i err
  | inl resp =>
      let i := if Resp_Complete resp then Item_set_Status Complete i else i in
      mkItem (Item_Base i) (RetryCount i) (PartitionID i) (NextGate resp)
             (Item_Status i) (ErrorMessages i) (Resp_Data resp)
  end.

Definition Watcher_processItem (db : gmap string Item) (fault : option error)
    (i : Item) : gmap string Item * Item * bool :=
  GormRepo_Save db fault (processItem_body i).

End Dispatch.

(** *** The running worker

    The goroutines of one worker around its item queue: each watcher with
    the fetched items it still has to send, each dispatcher with the item it
    is processing (if any). *)
Record worker : Type := mkWorker {
  itemQ : chan;
  watchers : list (list Item);
  dispatchers : list (option Item);
}.

Definition worker_init (q : chan) (w : Watcher) : worker :=
  mkWorker q [] (replicate (Z.to_nat (BatchSize w)) None).

Inductive worker_step : worker -> worker -> Prop :=
| step_spawn q ws ds :
    (* acquireLeases starts a watcher *)
    worker_step (mkWorker q ws ds) (mkWorker q (ws ++ [[]]) ds)
| step_fetch q ws ds k items :
    (* a watcher went through a pass and has [items] to send *)
    ws !! k = Some [] ->
    worker_step (mkWorker q ws ds) (mkWorker q (<[k := items]> ws) ds)
| step_send q q' ws ds k i rest :
    (* [w.itemQ <- i] *)
    ws !! k = Some (i :: rest) ->
    chan_send q i = Some q' ->
    worker_step (mkWorker q ws ds) (mkWorker q' (<[k := rest]> ws) ds)
| step_exit q ws ds k :
    (* a watcher returns *)
    ws !! k = Some [] ->
    worker_step (mkWorker q ws ds) (mkWorker q (delete k ws) ds)
| step_recv q q' ws ds d i :
    (* [for item := range w.itemQ] *)
    ds !! d = Some None ->
    chan_recv q = Some (i, q') ->
    worker_step (mkWorker q ws ds) (mkWorker q' ws (<[d := Some i]> ds))
| step_done q ws ds d i :
    (* [processItem] returns *)
    ds !! d = Some (Some i) ->
    worker_step (mkWorker q ws ds) (mkWorker q ws (<[d := None]> ds))
| step_close q ws ds :
    (* [close(w.itemQ)], once every watcher has returned *)
    ws = [] ->
    worker_step (mkWorker q ws ds) (mkWorker (chan_close q) ws ds).

End state.

(** ** Package [httprocessor] *)

Module httprocessor.

(** What a call returns, or that it panics. *)
Inductive outcome (A : Type) : Type :=
| Returns (a : A)
| Panics.
Arguments Returns {A} a.
Arguments Panics {A}.

(** The parts of [*http.Response] the package reads.  A body is the bytes
    it delivers; the client library never leaves it nil in a response. *)
Record Response : Type := mkResponse {
  StatusCode : Z;
  Status : string;
  Body : list Byte.byte;
}.

(** [HTTPClient]: both methods return a response pointer (possibly nil) and
    an error (possibly nil). *)
Record HTTPClient : Type := mkHTTPClient {
  Post : string -> string -> list Byte.byte -> option Response * option state.error;
  Get : string -> option Response * option state.error;
}.

Record processorError : Type := mkProcessorError {
  Message : string;
  NoRetry : bool;
}.

Record Processor : Type := mkProcessor {
  Client : HTTPClient;
  Target : string;
  HealthEndpoint : string;
}.

Section Codec.

(** [encoding/json] and [path] are the standard library's: a decoded object
    ([map[string]interface{}]) is opaque, the decoder either fails with a
    message of its own or fills the envelope, the encoder gives bytes or
    fails. *)
Variable json_object : Type.
Variable empty_object : json_object.

Record response : Type := mkEnvelope {
  NextGate : Z;
  Complete : bool;
  Data : option json_object;
  Error : option processorError;
}.

Inductive decoded : Type :=
| DecodeError (msg : string)
| Decoded (r : response).

Variable json_decode : list Byte.byte -> decoded.
Variable json_encode : json_object -> list Byte.byte + string.
Variable path_Join : string -> string -> string.

Definition GetData (r : response) : list Byte.byte + state.error :=
  let data := match Data r with Some d => d | None => empty_object end in
  match json_encode data with
  | inr msg => inr (state.errorString msg)
  | inl bytes => inl bytes
  end.

Definition procResponse (r : response) : state.ProcessorResponse + state.error :=
  match GetData r with
  | inr err =>
      inr (state.wrapError
             ("error marshaling data into bytes: " +:+ state.Error err) err)
  | inl data => inl (state.mkProcessorResponse (NextGate r) (Complete r) data)
  end.

Definition Process (h : Processor) (buf : list Byte.byte)
    : outcome (state.ProcessorResponse + state.error) :=
  match Post (Client h) (Target h) "application/json" buf with
  | (_, Some err) => Returns (inr err)
  | (None, None) => Panics
  | (Some resp, None) =>
      match json_decode (Body resp) with
      | DecodeError msg =>
          Returns (inr (state.wrapError
                          ("marshal error: " +:+ msg +:+
                           ", from request with HTTP Status: " +:+ Status resp)
                          (state.errorString msg)))
      | Decoded respObj =>
          match Error respObj with
          | Some e =>
              let err :=
                state.errorString
                  ("Status " +:+ Status resp +:+ "; message: " +:+ Message e) in
              Returns (inr (if NoRetry e
                            then state.NonRetryableError (state.Error err)
                            else err))
          | None =>
              if (StatusCode resp <? 200) || (StatusCode resp >=? 300)
              then Returns (inr (state.errorString (Status resp)))
              else Returns (procResponse respObj)
          end
      end
  end.

(** [Healthcheck]: what it returns (or that it panics) and the URLs it asked
    the client for.  [resp.Body.Close()] dereferences the response before the
    error is looked at. *)
Definition Healthcheck (h : Processor)
    : outcome (option state.error) * list string :=
  if decide (HealthEndpoint h = EmptyString) then (Returns None, [])
  else
    let url := path_Join (Target h) (HealthEndpoint h) in
    match Get (Client h) url with
    | (None, _) => (Panics, [url])
    | (Some _, err) => (Returns err, [url])
    end.

End Codec.

End httprocessor.

(** ** The rest of package [state] *)

Module state_more.

Import GoInt state.

(** *** [Watcher.Healthcheck]

    The two probes run in goroutines of their own and are joined by the
    wait group; [dbErr] and [procErr] are what they returned.
    [errors.Wrap(err, message)] of github.com/pkg/errors puts the message
    and a colon before the cause's text and unwraps to the cause. *)
Definition errors_Wrap (err : error) (message : string) : error :=
  wrapError (message +:+ ": " +:+ Error err) err.

Definition Watcher_Healthcheck (dbErr procErr : option error) : option error :=
  match dbErr, procErr with
  | Some d, Some p => Some (errors_Wrap d (Error p))
  | Some d, None => Some d
  | None, Some p => Some p
  | None, None => None
  end.

(** *** [GormRepo.GetCountByStatus]

    The query selects [status] and the count of rows [WHERE partition_id = ?
    GROUP BY status] over the items table: one row per status that at least one item
    of the partition has.  The loop over the rows fills the map. *)
Definition items_with (db : gmap string Item) (id : string) (s : Status)
    : list Item :=
  filter (fun i => PartitionID i = id /\ Item_Status i = s) (map_to_list db).*2.

Definition count_rows (db : gmap string Item) (id : string)
    : list (Status * Z) :=
  flat_map
    (fun s =>
       match items_with db id s with
       | [] => []
       | l => [(s, Z.of_nat (length l))]
       end)
    [Unknown; Available; Complete; Failed].

Definition scan_rows (rows : list (Status * Z)) : gmap Status Z :=
  fold_left (fun leaseCounts row => <[row.1 := row.2]> leaseCounts) rows ∅.

Definition GormRepo_GetCountByStatus (db : gmap string Item)
    (fault : option error) (id : string) : gmap Status Z + error :=
  match fault with
  | Some e => inr e
  | None => inl (scan_rows (count_rows db id))
  end.

(** *** [FairRepo], the repository of the tests *)

(** [strings.HasPrefix(s, prefix)]. *)
Definition HasPrefix (s prefix : string) : bool := String.prefix prefix s.

Definition FairRepo_GetPotentialLeases (owner : string)
    (db : gmap string Partition) (fault : option error) (now : Z)
    : list Partition * option error :=
  match GormRepo_GetPotentialLeases db fault now with
  | (_, Some err) => ([], Some err)
  | (all, None) =>
      (filter (fun p => HasPrefix (GetID p) owner = true) all, None)
  end.

(** *** Tables keyed by primary key *)

(** Every row is stored under its own id. *)
Definition keyed {A : Type} `{Model A} (db : gmap string A) : Prop :=
  forall k row, db !! k = Some row -> GetID row = k.

End state_more.

(** ** Package [main]: the log-level flag *)

Module cmd.

(** [logger.LogLevel] and its constants ([Silent] is [iota + 1]). *)
Definition logger_Silent : Z := 1.
Definition logger_Error : Z := 2.
Definition logger_Warn : Z := 3.
Definition logger_Info : Z := 4.

Record gormLogFlag : Type := mkGormLogFlag {
  value : string;
  level : Z;
}.

Definition gormLogFlag_String (g : gormLogFlag) : string := value g.

Definition gormValues : gmap string Z :=
  {[ "silent" := logger_Silent; "error" := logger_Error;
     "warn" := logger_Warn; "info" := logger_Info ]}.

(** [Set]: the flag after the call and the error returned. *)
Definition gormLogFlag_Set (g : gormLogFlag) (v : string)
    : gormLogFlag * option state.error :=
  match gormValues !! v with
  | Some l => (mkGormLogFlag v l, None)
  | None => (g, Some (state.errorString ("unknown gorm log level: " +:+ v)))
  end.

End cmd.

(** ** The spec's wording of the message log

    The specification describes [error_messages] as deduplicated against
    the most recent message.  This second definition follows those words:
    it remembers the message appended last, which the item itself does not
    store. *)

Module spec_words.

Record message_log : Type := mkLog {
  log_text : string;
  log_last : string;
}.

Definition log_append (l : message_log) (msg : string) : message_log :=
  if decide (log_text l = EmptyString) then mkLog msg msg
  else if decide (log_last l <> msg)
       then mkLog (state.Sprintf_lines (log_text l) msg) msg
       else l.

Definition error_messages (msgs : list string) : string :=
  log_text (fold_left log_append msgs (mkLog EmptyString EmptyString)).

End spec_words.

(** ** Values of the test suites

    The rows, workers and clients that [item_test.go], [getTestRepo],
    [TestWatcher] and [processor_test.go] build, and a client that fails the
    way [net/http]'s does. *)

Module fixtures.

Import state.

(** [&Item{Status: Available}]. *)
Definition fresh_item : Item :=
  mkItem (mkBaseModel EmptyString 0) 0 EmptyString 0 Available EmptyString [].

(** The first row [getTestRepo] seeds: [Save] on an empty table. *)
Definition p1_unowned : Partition :=
  mkPartition (mkBaseModel "p1_unowned" 0) 0 Failed EmptyString 0.

(** The table after that first seeding. *)
Definition seeded : gmap string Partition :=
  (GormRepo_Save (∅ : gmap string Partition) None p1_unowned).1.1.

(** The first worker of [TestWatcher] on its partition [p1_owned], one
    item fetched, the ticker firing. *)
Definition w1 : Watcher :=
  mkWatcher "p1" 1 1000000 false true 1000000000 30000000000.

Definition p1_owned : Partition :=
  mkPartition (mkBaseModel "p1_owned" 0) 0 Available "p1" 0.

Definition s5_owned : Item :=
  mkItem (mkBaseModel "s5_owned" 1) 0 "p1_owned" 0 Available EmptyString [].

Definition env1 : tick_env :=
  mkTickEnv (inl [s5_owned]) (inl {[ Available := 2; Complete := 1 ]})
            100 None 101 TickerFired.

(** The client of [processor_test.go], answering 500 with an envelope
    whose error is marked [no_retry]. *)
Definition mock_500 : httprocessor.HTTPClient :=
  httprocessor.mkHTTPClient
    (fun _ _ _ => (Some (httprocessor.mkResponse 500 "HTTP 500" []), None))
    (fun _ => (None, None)).

Definition no_retry_envelope : httprocessor.response unit :=
  httprocessor.mkEnvelope unit 0 false None
    (Some (httprocessor.mkProcessorError "additional error context" true)).

(** A client in the way of [net/http]'s: a request that fails gives a nil
    response and the error. *)
Definition refusing_client : httprocessor.HTTPClient :=
  httprocessor.mkHTTPClient
    (fun _ _ _ => (None, Some (state.errorString "connection refused")))
    (fun _ => (None, Some (state.errorString "connection refused"))).

Definition watched_processor : httprocessor.Processor :=
  httprocessor.mkProcessor refusing_client "http://backend" "/healthcheck".

End fixtures.

(** [sub] occurs in [s]. *)
Definition occurs_in (sub s : string) : Prop :=
  exists pre post, s = pre +:+ sub +:+ post.

(** * Properties *)

(** ** Machine integers *)

Module GoIntFacts.

Import GoInt.

Lemma wrap_is_int z : is_int (wrap z).
Proof.
  unfold is_int, wrap, int_min, int_max.
  pose proof (Z.mod_pos_bound (z + 2 ^ 63) (2 ^ 64) ltac:(lia)). lia.
Qed.

Lemma wrap_id z : is_int z -> wrap z = z.
Proof.
  unfold is_int, wrap, int_min, int_max. intros Hz.
  rewrite Z.mod_small by lia. lia.
Qed.

Lemma incr_is_int z : is_int (incr z).
Proof. apply wrap_is_int. Qed.

Lemma incr_no_overflow z : is_int z -> z < int_max -> incr z = z + 1.
Proof.
  intros Hz Hlt. unfold incr. apply wrap_id.
  unfold is_int, int_min, int_max in *. lia.
Qed.

Lemma incr_overflow : incr int_max = int_min.
Proof. reflexivity. Qed.

Lemma decr_incr z : is_int z -> decr (incr z) = z.
Proof.
  intros Hz. destruct (Z.eq_dec z int_max) as [->|Hne]; [reflexivity|].
  rewrite incr_no_overflow by (unfold is_int in *; lia).
  unfold decr. replace (z + 1 - 1) with z by lia. now apply wrap_id.
Qed.

End GoIntFacts.

(** ** Item errors *)

Module ItemFacts.

Import GoInt GoIntFacts state fixtures.

Section WithMaxRetries.

Variable MaxRetries : Z.

Lemma Item_errors_snoc i errs e :
  Item_errors MaxRetries i (errs ++ [e])
  = Item_error MaxRetries (Item_errors MaxRetries i errs) e.
Proof. unfold Item_errors. now rewrite fold_left_app. Qed.

(** Without overflow the counter counts the failures. *)
Lemma RetryCount_errors errs : forall i,
  0 <= RetryCount i ->
  RetryCount i + Z.of_nat (length errs) <= int_max ->
  RetryCount (Item_errors MaxRetries i errs)
  = RetryCount i + Z.of_nat (length errs).
Proof.
  induction errs as [|e errs IH]; intros i Hnn Hmax; simpl in *; [lia|].
  assert (Hstep : incr (RetryCount i) = RetryCount i + 1).
  { apply incr_no_overflow; unfold is_int, int_min, int_max in *; lia. }
  unfold Item_errors in *. simpl.
  rewrite IH; simpl; rewrite Hstep; lia.
Qed.

Lemma Item_error_status i e :
  Item_Status (Item_error MaxRetries i e)
  = if negb (IsRetryable e)
       || ((incr (RetryCount i) >? MaxRetries) && (MaxRetries >=? 0))
    then Failed else Item_Status i.
Proof. reflexivity. Qed.

Lemma Item_error_frame i e :
  Item_Base (Item_error MaxRetries i e) = Item_Base i
  /\ PartitionID (Item_error MaxRetries i e) = PartitionID i
  /\ Item_Gate (Item_error MaxRetries i e) = Item_Gate i
  /\ Data (Item_error MaxRetries i e) = Data i.
Proof. now repeat split. Qed.

End WithMaxRetries.

(** [TestError] of [item_test.go], with [MaxRetries = 3]. *)
Example TestError :
  let i1 := Item_error 3 fresh_item (errorString "test error") in
  let i2 := Item_error 3 i1 (errorString "test error") in
  let i3 := Item_error 3 i2 (errorString "test error 2") in
  let i4 := Item_error 3 i3 (errorString "last err") in
  (RetryCount i1, ErrorMessages i1, Item_Status i1)
  = (1, "test error", Available)
  /\ (RetryCount i2, ErrorMessages i2, Item_Status i2)
     = (2, "test error", Available)
  /\ (RetryCount i3, ErrorMessages i3, Item_Status i3)
     = (3, "test error" +:+ newline +:+ "test error 2", Available)
  /\ (RetryCount i4, Item_Status i4) = (4, Failed)
  /\ Item_Status (Item_error 3 fresh_item (NonRetryableError "test error"))
     = Failed.
Proof. repeat split. Qed.

(** C3.  [Item.error] assigns [Failed] exactly when the error is not
    retryable, or the incremented retry count exceeds [MaxRetries] and
    [MaxRetries] is not negative; otherwise the status is left as it was.
    Hence: [MaxRetries + 1] failures in a row on an item whose count starts
    non-negative (and does not overflow) leave it [Failed]; one
    non-retryable failure gives [Failed] whatever the count; and with
    [MaxRetries = -1] a retryable failure never changes the status. *)
Theorem Item_error_failed_rule (MaxRetries : Z) (i : Item) :
  (forall e,
      (IsRetryable e = false
       \/ (RetryCount (Item_error MaxRetries i e) > MaxRetries /\ MaxRetries >= 0)
       -> Item_Status (Item_error MaxRetries i e) = Failed)
      /\ (~ (IsRetryable e = false
             \/ (RetryCount (Item_error MaxRetries i e) > MaxRetries
                 /\ MaxRetries >= 0))
          -> Item_Status (Item_error MaxRetries i e) = Item_Status i))
  /\ (forall errs,
         MaxRetries >= 0 ->
         0 <= RetryCount i ->
         RetryCount i + (MaxRetries + 1) <= int_max ->
         Z.of_nat (length errs) = MaxRetries + 1 ->
         Item_Status (Item_errors MaxRetries i errs) = Failed)
  /\ (forall e,
         IsRetryable e = false ->
         Item_Status (Item_error MaxRetries i e) = Failed)
  /\ (forall e,
         MaxRetries = -1 ->
         IsRetryable e = true ->
         Item_Status (Item_error MaxRetries i e) = Item_Status i).
Proof.
  assert (Hrule : forall e,
    (IsRetryable e = false
     \/ (RetryCount (Item_error MaxRetries i e) > MaxRetries /\ MaxRetries >= 0))
    <-> negb (IsRetryable e)
        || ((incr (RetryCount i) >? MaxRetries) && (MaxRetries >=? 0)) = true).
  { intros e. simpl.
    rewrite orb_true_iff, andb_true_iff, negb_true_iff, Z.gtb_gt, Z.geb_ge.
    tauto. }
  split; [|split; [|split]].
  - intros e. rewrite Item_error_status. split; intros Hc.
    + apply Hrule in Hc. now rewrite Hc.
    + destruct (negb (IsRetryable e) || _) eqn:Hb; [|reflexivity].
      exfalso. apply Hc, Hrule, Hb.
  - intros errs Hmr Hnn Hmax Hlen.
    destruct errs as [|e0 errs0] using rev_ind; [simpl in Hlen; lia|].
    clear IHerrs0. rewrite length_app in Hlen. simpl in Hlen.
    rewrite Item_errors_snoc, Item_error_status.
    rewrite RetryCount_errors by lia.
    rewrite incr_no_overflow
      by (unfold is_int, int_min, int_max in *; lia).
    replace (RetryCount i + Z.of_nat (length errs0) + 1 >? MaxRetries)
      with true by (symmetry; apply Z.gtb_gt; lia).
    replace (MaxRetries >=? 0) with true by (symmetry; apply Z.geb_ge; lia).
    now rewrite orb_true_r.
  - intros e He. rewrite Item_error_status, He. reflexivity.
  - intros e -> He. rewrite Item_error_status, He. simpl.
    now rewrite andb_false_r.
Qed.

(** The rule at the values of [item_test.go]: [MaxRetries = 3] and four
    failures of a fresh item. *)
Lemma Item_error_failed_rule_witness :
  Item_Status
    (Item_errors 3 fresh_item
       [errorString "test error"; errorString "test error";
        errorString "test error 2"; errorString "last err"])
  = Failed.
Proof.
  apply (proj1 (proj2 (Item_error_failed_rule 3 _))); simpl;
    unfold int_max; lia.
Defined.

(** What [Item.error] does to the counter and to the message log: the
    comparison is between the whole accumulated text and the new message. *)
Lemma Item_error_log (MaxRetries : Z) (i : Item) (e : error) :
  RetryCount (Item_error MaxRetries i e) = incr (RetryCount i)
  /\ (is_int (RetryCount i) -> RetryCount i < int_max ->
      RetryCount (Item_error MaxRetries i e) = RetryCount i + 1)
  /\ (ErrorMessages i = EmptyString ->
      ErrorMessages (Item_error MaxRetries i e) = Error e)
  /\ (ErrorMessages i <> EmptyString -> ErrorMessages i <> Error e ->
      ErrorMessages (Item_error MaxRetries i e)
      = ErrorMessages i +:+ newline +:+ Error e)
  /\ (ErrorMessages i <> EmptyString -> ErrorMessages i = Error e ->
      ErrorMessages (Item_error MaxRetries i e) = ErrorMessages i).
Proof.
  split; [reflexivity|]. split; [intros; now apply incr_no_overflow|].
  unfold Item_error, Sprintf_lines; simpl.
  repeat split; intros; repeat case_decide; congruence.
Qed.

(** C4.  Three failures with the messages a, b, b: the message appended
    last is b when the third arrives, so the log the spec describes stays
    at two lines; [Item.error] compares b with the whole text and appends
    it a second time. *)
Theorem Item_error_appends_repeated_message :
  ErrorMessages
    (Item_errors 5 fresh_item
       [errorString "a"; errorString "b"; errorString "b"])
  = "a" +:+ newline +:+ "b" +:+ newline +:+ "b"
  /\ spec_words.error_messages ["a"; "b"; "b"] = "a" +:+ newline +:+ "b"
  /\ RetryCount
       (Item_errors 5 fresh_item
          [errorString "a"; errorString "b"; errorString "b"]) = 3.
Proof. repeat split. Qed.

End ItemFacts.

(** ** The repository *)

Module RepoFacts.

Import GoInt GoIntFacts state fixtures.

(** Every model embeds [BaseModel]: its four methods are those of the
    embedded struct. *)
Class ModelLaws (A : Type) `{Model A} : Prop := {
  GetID_Increment (m : A) : GetID (IncrementVersion m) = GetID m;
  GetID_Decrement (m : A) : GetID (DecrementVersion m) = GetID m;
  GetVersion_Increment (m : A) :
    GetVersion (IncrementVersion m) = incr (GetVersion m);
  GetVersion_Decrement (m : A) :
    GetVersion (DecrementVersion m) = decr (GetVersion m);
}.

#[global] Instance Item_laws : ModelLaws Item.
Proof. now split. Qed.

#[global] Instance Partition_laws : ModelLaws Partition.
Proof. now split. Qed.

Section Save.

Context {A : Type} `{Model A} `{!ModelLaws A}.

Lemma gorm_Create_cases (db db' : gmap string A) (m : A) r :
  gorm_Create db m = (db', r) ->
  (r = None /\ db' = <[GetID m := m]> db /\ db !! GetID m = None)
  \/ (exists e, r = Some e /\ db' = db /\ is_Some (db !! GetID m)).
Proof.
  unfold gorm_Create. destruct (db !! GetID m) eqn:Hrow; intros [= <- <-].
  - right. eauto.
  - left. auto.
Qed.

(** The ORM's call either writes the model under its key, which happens
    only on a row of the expected version or on a free key, or reports an
    error and leaves the table alone. *)
Lemma gorm_Save_cases (db db' : gmap string A) fault version (m : A) r :
  gorm_Save db fault version m = (db', r) ->
  (r = None /\ db' = <[GetID m := m]> db /\ fault = None
   /\ (db !! GetID m = None
       \/ exists row, db !! GetID m = Some row /\ GetVersion row = version))
  \/ (exists e, r = Some e /\ db' = db
      /\ (is_Some fault \/ is_Some (db !! GetID m))).
Proof.
  unfold gorm_Save. destruct fault as [e|].
  { intros [= <- <-]. right. eauto 6. }
  case_decide as Hid;
    [|destruct (db !! GetID m) as [row|] eqn:Hrow;
      [case_decide as Hv|]];
    try (intros Hc;
         apply gorm_Create_cases in Hc as [(-> & -> & Hn)|(e & -> & -> & Hs)];
         [left; rewrite ?Hrow in *; auto | right; rewrite ?Hrow in *; eauto 6]).
  intros [= <- <-]. left. repeat split; eauto.
Qed.

Lemma gorm_Save_stale (db : gmap string A) version (m row : A) fault :
  db !! GetID m = Some row ->
  GetVersion row <> version ->
  exists e, gorm_Save db fault version m = (db, Some e).
Proof.
  intros Hrow Hv. unfold gorm_Save, gorm_Create.
  destruct fault; [eauto|].
  rewrite Hrow. repeat case_decide; try congruence; eauto.
Qed.

Lemma gorm_Save_match (db : gmap string A) (m row : A) :
  GetID m <> EmptyString ->
  db !! GetID m = Some row ->
  gorm_Save db None (GetVersion row) m = (<[GetID m := m]> db, None).
Proof.
  intros Hid Hrow. unfold gorm_Save. rewrite Hrow.
  repeat case_decide; congruence.
Qed.

End Save.




(** *** Lease candidates *)

Lemma GetPotentialLeases_elem (db : gmap string Partition) now p :
  p ∈ (GormRepo_GetPotentialLeases db None now).1
  <-> (exists k, db !! k = Some p) /\ lease_candidate now p.
Proof.
  simpl. rewrite list_elem_of_filter, list_elem_of_fmap. split.
  - intros [Hc ([k q] & -> & Hin)]. apply elem_of_map_to_list in Hin. eauto.
  - intros [[k Hk] Hc]. split; [exact Hc|].
    exists (k, p). split; [reflexivity|]. now apply elem_of_map_to_list.
Qed.

Lemma GetPotentialLeases_candidates (db : gmap string Partition) fault now p :
  p ∈ (GormRepo_GetPotentialLeases db fault now).1 -> lease_candidate now p.
Proof.
  destruct fault as [e|].
  - simpl. intros Hin. now apply elem_of_nil in Hin.
  - intros Hin. now apply GetPotentialLeases_elem in Hin.
Qed.

(** A round of acquisition enters and spawns offered partitions only. *)
Lemma acquire_fold parts : forall leases sp,
  (forall p, p ∈ (fold_left acquire_one parts (leases, sp)).2 ->
             p ∈ sp \/ p ∈ parts)
  /\ (forall k p, (fold_left acquire_one parts (leases, sp)).1 !! k = Some p ->
                  leases !! k = Some p \/ p ∈ parts).
Proof.
  induction parts as [|q parts IH]; intros leases sp.
  { simpl. split; auto. }
  change (fold_left acquire_one (q :: parts) (leases, sp))
    with (fold_left acquire_one parts (acquire_one (leases, sp) q)).
  unfold acquire_one at 2 4.
  destruct (leases !! GetID q) as [held|] eqn:Hheld.
  - destruct (IH leases sp) as [IH1 IH2]. split.
    + intros p Hp. destruct (IH1 p Hp); [auto|right; now apply list_elem_of_further].
    + intros k p Hp. destruct (IH2 k p Hp); [auto|right; now apply list_elem_of_further].
  - destruct (IH (<[GetID q := q]> leases) (sp ++ [q])) as [IH1 IH2]. split.
    + intros p Hp. destruct (IH1 p Hp) as [Hin|Hin].
      * apply elem_of_app in Hin as [Hin|Hin]; [auto|].
        apply list_elem_of_singleton in Hin as ->. right. apply list_elem_of_here.
      * right. now apply list_elem_of_further.
    + intros k p Hp. destruct (IH2 k p Hp) as [Hin|Hin].
      * destruct (decide (GetID q = k)) as [<-|Hne].
        -- rewrite lookup_insert_eq in Hin. injection Hin as ->.
           right. apply list_elem_of_here.
        -- rewrite lookup_insert_ne in Hin by assumption. auto.
      * right. now apply list_elem_of_further.
Qed.

(** C5.  Without a database error [GetPotentialLeases] returns exactly the
    stored partitions whose status is not [Complete] and whose [until] is
    earlier than [now].  So no partition it returns is [Complete], and a
    round of [acquireLeases] spawns watchers for, and enters in [leases],
    only partitions that are not [Complete]. *)
Theorem GetPotentialLeases_exact (db : gmap string Partition) (now : Z) :
  (GormRepo_GetPotentialLeases db None now).2 = None
  /\ (forall p,
        p ∈ (GormRepo_GetPotentialLeases db None now).1
        <-> (exists k, db !! k = Some p)
            /\ Partition_Status p <> Complete /\ Until p < now)
  /\ (forall fault p,
        p ∈ (GormRepo_GetPotentialLeases db fault now).1 ->
        Partition_Status p <> Complete)
  /\ (forall fault leases p,
        p ∈ (acquireLeases_round db fault now leases).2 ->
        (exists k, db !! k = Some p)
        /\ Partition_Status p <> Complete /\ Until p < now)
  /\ (forall fault leases k p,
        (acquireLeases_round db fault now leases).1 !! k = Some p ->
        leases !! k = Some p
        \/ (Partition_Status p <> Complete /\ Until p < now)).
Proof.
  split; [reflexivity|]. split; [apply GetPotentialLeases_elem|].
  split.
  { intros fault p Hin.
    exact (proj1 (GetPotentialLeases_candidates db fault now p Hin)). }
  assert (Hoffer : forall fault p,
    p ∈ (GormRepo_GetPotentialLeases db fault now).1 ->
    (exists k, db !! k = Some p) /\ lease_candidate now p).
  { intros [e|] p Hin.
    - now apply elem_of_nil in Hin.
    - now apply GetPotentialLeases_elem in Hin. }
  split.
  - intros fault leases p. unfold acquireLeases_round.
    specialize (Hoffer fault).
    destruct (GormRepo_GetPotentialLeases db fault now) as [parts err].
    intros Hin. apply (proj1 (acquire_fold parts leases [])) in Hin as [Hin|Hin].
    + now apply elem_of_nil in Hin.
    + exact (Hoffer p Hin).
  - intros fault leases k p. unfold acquireLeases_round.
    specialize (Hoffer fault).
    destruct (GormRepo_GetPotentialLeases db fault now) as [parts err].
    intros Hin. apply (proj2 (acquire_fold parts leases [])) in Hin as [Hin|Hin].
    + now left.
    + right. exact (proj2 (Hoffer p Hin)).
Qed.

End RepoFacts.

(** ** The watcher *)

Module WatcherFacts.

Import GoInt GoIntFacts state fixtures.

Lemma gtb_false_le a b : (a >? b) = false <-> a <= b.
Proof. rewrite Z.gtb_ltb, Z.ltb_ge. reflexivity. Qed.

(** C2.  The partition after the status computation of a tick: [Failed]
    when the count of failed items is positive; otherwise, when the count
    of available items is positive, [Available], with the gate incremented
    (by one, short of overflow) when moreover no item was fetched and
    [ManualCheckpoint] is off, and nothing else changed; otherwise
    [Complete] when no item was fetched and [AutoClose] is on, and the
    partition as it was in every other case. *)
Theorem watch_update_rule (w : Watcher) (p : Partition) (items : list Item)
    (counts : gmap Status Z) :
  (count_of counts Failed > 0 ->
   watch_update w p items counts = Partition_set_Status Failed p)
  /\ (count_of counts Failed <= 0 -> count_of counts Available > 0 ->
      Partition_Status (watch_update w p items counts) = Available
      /\ (items = [] -> ManualCheckpoint w = false ->
          Gate (watch_update w p items counts) = incr (Gate p)
          /\ (is_int (Gate p) -> Gate p < int_max ->
              Gate (watch_update w p items counts) = Gate p + 1))
      /\ (items <> [] \/ ManualCheckpoint w = true ->
          Gate (watch_update w p items counts) = Gate p)
      /\ Partition_Base (watch_update w p items counts) = Partition_Base p
      /\ Owner (watch_update w p items counts) = Owner p
      /\ Until (watch_update w p items counts) = Until p)
  /\ (count_of counts Failed <= 0 -> count_of counts Available <= 0 ->
      (items = [] -> AutoClose w = true ->
       watch_update w p items counts = Partition_set_Status Complete p)
      /\ (items <> [] \/ AutoClose w = false ->
          watch_update w p items counts = p)).
Proof.
  unfold watch_update. split; [|split].
  - intros Hf. apply Z.gt_lt, Z.gtb_lt in Hf. now rewrite Hf.
  - intros Hf Ha. apply gtb_false_le in Hf. rewrite Hf.
    apply Z.gt_lt, Z.gtb_lt in Ha. rewrite Ha.
    destruct items as [|i items]; destruct (ManualCheckpoint w); simpl;
      repeat split; intros;
      try first [reflexivity | congruence | now apply incr_no_overflow
                | intuition congruence].
  - intros Hf Ha. apply gtb_false_le in Hf, Ha. rewrite Hf, Ha.
    destruct items as [|i items]; destruct (AutoClose w); simpl;
      repeat split; intros;
      try first [reflexivity | congruence | now destruct p
                | intuition congruence].
Qed.

(** [Save] changes nothing of a partition but its version. *)
Lemma Save_Partition_fields (db db' : gmap string Partition) fault
    (p p' : Partition) ok :
  GormRepo_Save db fault p = (db', p', ok) ->
  GetID p' = GetID p /\ Gate p' = Gate p
  /\ Partition_Status p' = Partition_Status p
  /\ Owner p' = Owner p /\ Until p' = Until p.
Proof.
  unfold GormRepo_Save.
  destruct (gorm_Save _ _ _ _) as [db1 [e|]]; intros [= <- <- <-]; now simpl.
Qed.

Lemma InActive_spec (p : Partition) now :
  Partition_InActive p now = true
  <-> Partition_Status p <> Available \/ Until p < now.
Proof.
  unfold Partition_InActive, Partition_Active, Partition_Expired.
  rewrite negb_true_iff, andb_false_iff, negb_false_iff.
  rewrite bool_decide_eq_false, Z.ltb_lt. reflexivity.
Qed.


(** The other case of the [select]: a cancelled context ends the goroutine
    after the items were sent. *)
Lemma watchPartition_cancelled (w : Watcher) (db db' leases : gmap string Partition)
    (p p' : Partition) (env : tick_env) (items sent : list Item)
    (envs : list tick_env) :
  watch_body w db p env = (db', p', Enqueued items) ->
  wakeup env = ContextDone ->
  watchPartition w db leases p sent (env :: envs)
  = mkWatchState db' (delete (GetID p') leases) p' (sent ++ items) false.
Proof. intros Hbody Hwake. simpl. now rewrite Hbody, Hwake. Qed.


(** *** The item queue *)

Lemma chan_send_len (q q' : chan) i :
  chan_send q i = Some q' ->
  chan_cap q' = chan_cap q /\ chan_len q' = chan_len q + 1
  /\ chan_len q < chan_cap q.
Proof.
  unfold chan_send. destruct (chan_len q <? chan_cap q) eqn:Hroom; [|discriminate].
  intros [= <-]. apply Z.ltb_lt in Hroom.
  unfold chan_len in *. simpl. rewrite length_app. simpl. lia.
Qed.

Lemma chan_recv_len (q q' : chan) i :
  chan_recv q = Some (i, q') ->
  chan_cap q' = chan_cap q /\ chan_len q' = chan_len q - 1.
Proof.
  unfold chan_recv. destruct (chan_buf q) as [|j rest] eqn:Hbuf; [discriminate|].
  intros [= <- <-]. unfold chan_len. rewrite Hbuf. simpl. lia.
Qed.

(** No step of any goroutine changes the capacity or overfills the queue. *)
Lemma worker_step_bounded (s s' : worker) :
  worker_step s s' ->
  chan_cap (itemQ s') = chan_cap (itemQ s)
  /\ (chan_len (itemQ s) <= chan_cap (itemQ s) ->
      chan_len (itemQ s') <= chan_cap (itemQ s')).
Proof.
  destruct 1 as [q ws ds|q ws ds k items Hk|q q' ws ds k i rest Hk Hsend
                |q ws ds k Hk|q q' ws ds d i Hd Hrecv|q ws ds d i Hd|q ws ds Hws];
    simpl; auto.
  - apply chan_send_len in Hsend as (-> & -> & Hroom). split; [reflexivity|lia].
  - apply chan_recv_len in Hrecv as (-> & ->). split; [reflexivity|lia].
Qed.

(** C8.  In every state a worker can reach after [Start], under any
    interleaving of its watchers and dispatchers, the item queue has the
    capacity [BatchSize] (ten when none was configured) and holds at most
    that many items. *)
Theorem itemQ_bounded (DefaultPollInterval MinLeaseDuration : Z)
    (OverrideMinLeaseDuration : bool) (fresh_uuid : string)
    (w0 w : Watcher) (q : chan) (s : worker) :
  Watcher_Start DefaultPollInterval MinLeaseDuration OverrideMinLeaseDuration
                fresh_uuid w0 = Some (w, q) ->
  rtc worker_step (worker_init q w) s ->
  BatchSize w = (if BatchSize w0 =? 0 then 10 else BatchSize w0)
  /\ chan_cap (itemQ s) = BatchSize w
  /\ Z.of_nat (length (chan_buf (itemQ s))) <= BatchSize w.
Proof.
  unfold Watcher_Start, make_chan. intros Hstart Hreach.
  destruct (BatchSize (Watcher_defaults _ _ _ _ w0) <? 0) eqn:Hneg;
    [discriminate|].
  injection Hstart as <- <-. apply Z.ltb_ge in Hneg.
  split; [reflexivity|].
  revert s Hreach. apply rtc_ind_r.
  - simpl. split; [reflexivity|exact Hneg].
  - intros s1 s2 Hreach Hstep [Hcap Hlen].
    apply worker_step_bounded in Hstep as [Hcap' Hkeep].
    split; [congruence|].
    rewrite <- Hcap, <- Hcap'. apply Hkeep. now rewrite Hcap.
Qed.

(** A worker of batch size one: a watcher spawned, an item fetched and sent;
    the queue is full and the bound is met with equality. *)
Lemma itemQ_bounded_witness :
  Z.of_nat (length (chan_buf (mkChan [s5_owned] 1 false))) <= 1.
Proof.
  refine (proj2 (proj2 (itemQ_bounded 1000000000 30000000000 false "uuid" w1 w1
            (mkChan [] 1 false)
            (mkWorker (mkChan [s5_owned] 1 false) [[]] [None]) eq_refl _))).
  eapply rtc_l; [apply step_spawn|]. simpl.
  eapply rtc_l; [apply (step_fetch _ [[]] _ 0%nat [s5_owned]); reflexivity|].
  simpl.
  eapply rtc_l;
    [apply (step_send _ (mkChan [s5_owned] 1 false) [[s5_owned]] _ 0%nat
              s5_owned []); reflexivity|].
  simpl. apply rtc_refl.
Defined.

End WatcherFacts.

(** ** The dispatcher *)

Module DispatchFacts.

Import GoInt state.

Lemma Save_Item_fields (db db' : gmap string Item) fault (i i' : Item) ok :
  GormRepo_Save db fault i = (db', i', ok) ->
  Data i' = Data i /\ Item_Gate i' = Item_Gate i
  /\ RetryCount i' = RetryCount i /\ Item_Status i' = Item_Status i
  /\ ErrorMessages i' = ErrorMessages i.
Proof.
  unfold GormRepo_Save.
  destruct (gorm_Save _ _ _ _) as [db1 [e|]]; intros [= <- <- <-]; now simpl.
Qed.

(** C9.  When the processor returns an error, [processItem] hands to its
    final save an item that differs from the dispatched one in
    [RetryCount], [ErrorMessages] and [Status] at most: [Data] and [Gate]
    (and the base model and partition id) are as before, and they still are
    after the save.  [Gate] and [Data] take the response's values on the
    success path. *)
Theorem processItem_error_frame (MaxRetries : Z)
    (Process : string -> list Byte.byte -> ProcessorResponse + error)
    (i : Item) :
  (forall err,
      Process (GetID i) (Data i) = inr err ->
      processItem_body MaxRetries Process i
      = mkItem (Item_Base i)
               (RetryCount (processItem_body MaxRetries Process i))
               (PartitionID i) (Item_Gate i)
               (Item_Status (processItem_body MaxRetries Process i))
               (ErrorMessages (processItem_body MaxRetries Process i))
               (Data i)
      /\ Data (processItem_body MaxRetries Process i) = Data i
      /\ Item_Gate (processItem_body MaxRetries Process i) = Item_Gate i
      /\ forall db fault,
           Data (Watcher_processItem MaxRetries Process db fault i).1.2 = Data i
           /\ Item_Gate (Watcher_processItem MaxRetries Process db fault i).1.2
              = Item_Gate i)
  /\ (forall resp,
         Process (GetID i) (Data i) = inl resp ->
         Item_Gate (processItem_body MaxRetries Process i) = NextGate resp
         /\ Data (processItem_body MaxRetries Process i) = Resp_Data resp).
Proof.
  split.
  - intros err Herr.
    assert (Hbody : processItem_body MaxRetries Process i
                    = Item_error MaxRetries i err).
    { unfold processItem_body. now rewrite Herr. }
    rewrite Hbody. repeat split; try reflexivity.
    + unfold Watcher_processItem. rewrite Hbody.
      destruct (GormRepo_Save db fault (Item_error MaxRetries i err))
        as [[db' i'] ok] eqn:Hs.
      apply Save_Item_fields in Hs as (HD & _). simpl. now rewrite HD.
    + unfold Watcher_processItem. rewrite Hbody.
      destruct (GormRepo_Save db fault (Item_error MaxRetries i err))
        as [[db' i'] ok] eqn:Hs.
      apply Save_Item_fields in Hs as (_ & HG & _). simpl. now rewrite HG.
  - intros resp Hresp. unfold processItem_body. rewrite Hresp.
    now destruct (Resp_Complete resp).
Qed.

(** The item s6 of the tests, whose processor fails with a retryable error. *)
Lemma processItem_error_frame_witness :
  Data (processItem_body 3 (fun _ _ => inr (errorString "moving to failed item"))
          (mkItem (mkBaseModel "s6_owned_should_fail" 1) 0 "p2_owned" 0
                  Available EmptyString [Byte.x7b; Byte.x7d]))
  = [Byte.x7b; Byte.x7d].
Proof.
  refine (proj1 (proj2 (proj1 (processItem_error_frame 3 _ _)
                          (errorString "moving to failed item") eq_refl))).
Defined.

End DispatchFacts.

(** ** The HTTP processor *)

Module HttpFacts.

Import httprocessor fixtures.

Lemma occurs_in_middle (pre sub post : string) :
  occurs_in sub (pre +:+ sub +:+ post).
Proof. now exists pre, post. Qed.

Lemma append_cons c (s t : string) : String c s +:+ t = String c (s +:+ t).
Proof. reflexivity. Qed.

Lemma append_nil_r (s : string) : s +:+ EmptyString = s.
Proof.
  induction s as [|c s IH]; [reflexivity|]. now rewrite append_cons, IH.
Qed.

Lemma append_assoc (a b c : string) : a +:+ b +:+ c = (a +:+ b) +:+ c.
Proof.
  induction a as [|x a IH]; [reflexivity|]. now rewrite !append_cons, IH.
Qed.

Lemma occurs_in_end (pre sub : string) : occurs_in sub (pre +:+ sub).
Proof. exists pre, EmptyString. now rewrite append_nil_r. Qed.

Lemma occurs_in_last (a b c d : string) : occurs_in d (a +:+ b +:+ c +:+ d).
Proof.
  rewrite (append_assoc b c d), (append_assoc a). apply occurs_in_end.
Qed.

Section Codec.

Variable json_object : Type.
Variable empty_object : json_object.
Variable json_decode : list Byte.byte -> decoded json_object.
Variable json_encode : json_object -> list Byte.byte + string.

(** C7.  A call of [Process] whose POST brought a response.  When the body
    decodes to an envelope with a non-null [error], the call returns the
    error "Status <s>; message: <m>", non-retryable exactly when [no_retry]
    is set, whatever the status code.  When the envelope has no [error] and
    the status code lies outside 200..299, it returns a retryable error
    whose message is the status string.  When the body does not decode, it
    returns a retryable error whose message holds both the status string
    and the decoder's message. *)
Theorem Process_error_rules (h : Processor) (buf : list Byte.byte)
    (resp : Response) :
  Post (Client h) (Target h) "application/json" buf = (Some resp, None) ->
  (forall r e,
      json_decode (Body resp) = Decoded json_object r ->
      Error json_object r = Some e ->
      exists err,
        Process json_object empty_object json_decode json_encode h buf
        = Returns (inr err)
        /\ state.Error err
           = "Status " +:+ Status resp +:+ "; message: " +:+ Message e
        /\ (state.IsRetryable err = false <-> NoRetry e = true))
  /\ (forall r,
         json_decode (Body resp) = Decoded json_object r ->
         Error json_object r = None ->
         StatusCode resp < 200 \/ 299 < StatusCode resp ->
         Process json_object empty_object json_decode json_encode h buf
        = Returns (inr (state.errorString (Status resp)))
         /\ state.IsRetryable (state.errorString (Status resp)) = true
         /\ state.Error (state.errorString (Status resp)) = Status resp)
  /\ (forall msg,
         json_decode (Body resp) = DecodeError json_object msg ->
         exists err,
           Process json_object empty_object json_decode json_encode h buf
        = Returns (inr err)
           /\ state.IsRetryable err = true
           /\ occurs_in (Status resp) (state.Error err)
           /\ occurs_in msg (state.Error err)).
Proof.
  intros Hpost. unfold httprocessor.Process. rewrite Hpost.
  split; [|split].
  - intros r e -> ->. destruct (NoRetry e) eqn:Hnr; eexists;
      (split; [reflexivity|]); split; try reflexivity;
      unfold state.IsRetryable, state.NonRetryableError; simpl;
      split; congruence.
  - intros r -> -> Hcode.
    replace ((StatusCode resp <? 200) || (StatusCode resp >=? 300)) with true.
    + now repeat split.
    + symmetry. apply orb_true_iff. rewrite Z.ltb_lt, Z.geb_ge. lia.
  - intros msg ->. eexists. split; [reflexivity|]. split; [reflexivity|].
    simpl. split.
    + apply occurs_in_last.
    + apply occurs_in_middle.
Qed.

End Codec.

Lemma Process_error_rules_witness :
  exists err,
    Process unit tt (fun _ => Decoded unit no_retry_envelope) (fun _ => inl [])
            (mkProcessor mock_500 EmptyString EmptyString) []
    = Returns (inr err)
    /\ state.Error err = "Status HTTP 500; message: additional error context"
    /\ (state.IsRetryable err = false <-> true = true).
Proof.
  exact (proj1 (Process_error_rules unit tt
                  (fun _ => Decoded unit no_retry_envelope) (fun _ => inl [])
                  (mkProcessor mock_500 EmptyString EmptyString) []
                  (mkResponse 500 "HTTP 500" []) eq_refl)
               no_retry_envelope
               (mkProcessorError "additional error context" true)
               eq_refl eq_refl).
Defined.

(** Cases of [TestProcess]: status 400 with an empty envelope, and status
    200 with an error marked [no_retry]. *)
Example TestProcess :
  Process unit tt (fun _ => Decoded unit (mkEnvelope unit 0 false None None))
          (fun _ => inl [])
          (mkProcessor
             (mkHTTPClient (fun _ _ _ => (Some (mkResponse 400 "HTTP 400" []), None))
                           (fun _ => (None, None)))
             EmptyString EmptyString) []
  = Returns (inr (state.errorString "HTTP 400"))
  /\ Process unit tt (fun _ => Decoded unit no_retry_envelope) (fun _ => inl [])
             (mkProcessor
                (mkHTTPClient
                   (fun _ _ _ => (Some (mkResponse 200 "HTTP 200" []), None))
                   (fun _ => (None, None)))
                EmptyString EmptyString) []
     = Returns (inr (state.NonRetryableError
                       "Status HTTP 200; message: additional error context")).
Proof. split; reflexivity. Qed.

(** *** Healthcheck *)

(** What [Healthcheck] does in each case: nothing with an empty endpoint;
    one GET otherwise, whose error is returned as it is, status code unread,
    when a response came with it; a panic when the response is nil. *)
Lemma Healthcheck_cases (path_Join : string -> string -> string)
    (h : Processor) :
  (HealthEndpoint h = EmptyString ->
   Healthcheck path_Join h = (Returns None, []))
  /\ (forall resp err,
         HealthEndpoint h <> EmptyString ->
         Get (Client h) (path_Join (Target h) (HealthEndpoint h))
         = (Some resp, err) ->
         Healthcheck path_Join h
         = (Returns err, [path_Join (Target h) (HealthEndpoint h)]))
  /\ (forall err,
         HealthEndpoint h <> EmptyString ->
         Get (Client h) (path_Join (Target h) (HealthEndpoint h)) = (None, err) ->
         Healthcheck path_Join h
         = (Panics, [path_Join (Target h) (HealthEndpoint h)])).
Proof.
  unfold Healthcheck. repeat split.
  - intros ->. now case_decide.
  - intros resp err Hne ->. now case_decide.
  - intros err Hne ->. now case_decide.
Qed.

(** C10.  With a health endpoint configured and a GET that fails the way
    [http.Client]'s does, [Healthcheck] does not return the transport
    error: it panics on the nil response. *)
Theorem Healthcheck_panics_on_failed_get
    (path_Join : string -> string -> string) :
  Healthcheck path_Join watched_processor
  = (Panics, [path_Join "http://backend" "/healthcheck"]).
Proof. reflexivity. Qed.

End HttpFacts.

(** ** More on the repository *)

Module RepoMore.

Import GoInt GoIntFacts state state_more fixtures RepoFacts.

Lemma incr_neq z : incr z <> z.
Proof.
  intros Heq. pose proof (incr_is_int z) as Hint. rewrite Heq in Hint.
  destruct (Z.eq_dec z int_max) as [->|Hne]; [discriminate Heq|].
  rewrite incr_no_overflow in Heq by (unfold is_int in *; lia). lia.
Qed.

Section Save.

Context {A : Type} `{Model A} `{!ModelLaws A}.

(** The two ways [Save] ends. *)
Lemma GormRepo_Save_cases (db db' : gmap string A) fault (m m' : A) ok :
  GormRepo_Save db fault m = (db', m', ok) ->
  (ok = true /\ m' = IncrementVersion m
   /\ db' = <[GetID m := IncrementVersion m]> db /\ fault = None)
  \/ (ok = false /\ m' = DecrementVersion (IncrementVersion m) /\ db' = db).
Proof.
  unfold GormRepo_Save.
  destruct (gorm_Save db fault (GetVersion m) (IncrementVersion m))
    as [db1 r] eqn:Hsave.
  apply gorm_Save_cases in Hsave. rewrite GetID_Increment in Hsave.
  destruct Hsave as [(-> & -> & -> & _)|(e & -> & -> & _)];
    intros [= <- <- <-]; auto.
Qed.

(** X3.  Of two saves that start from the same stored version of one
    entity, the second fails whatever the database does, and leaves the
    table as the first wrote it. *)
Theorem Save_second_writer_loses (db db1 : gmap string A) (m1 m1' m2 : A)
    (fault : option error) :
  GormRepo_Save db None m1 = (db1, m1', true) ->
  GetID m2 = GetID m1 ->
  GetVersion m2 = GetVersion m1 ->
  (GormRepo_Save db1 fault m2).2 = false
  /\ (GormRepo_Save db1 fault m2).1.1 = db1.
Proof.
  intros Hfirst Hid Hver.
  apply GormRepo_Save_cases in Hfirst as [(_ & -> & -> & _)|(? & _)];
    [|discriminate].
  unfold GormRepo_Save.
  destruct (gorm_Save_stale (<[GetID m1 := IncrementVersion m1]> db)
              (GetVersion m2) (IncrementVersion m2) (IncrementVersion m1) fault)
    as [e He].
  - rewrite GetID_Increment, Hid. apply lookup_insert_eq.
  - rewrite GetVersion_Increment, Hver. apply incr_neq.
  - now rewrite He.
Qed.

(** X4.  The entity [Save] returned after a success can be saved again,
    provided its id is not empty: the version goes up once more. *)
Theorem Save_owner_saves_again (db db1 : gmap string A) (m m1 : A) :
  GetID m <> EmptyString ->
  GormRepo_Save db None m = (db1, m1, true) ->
  GormRepo_Save db1 None m1
  = (<[GetID m := IncrementVersion m1]> db1, IncrementVersion m1, true)
    /\ GetVersion (IncrementVersion m1) = incr (incr (GetVersion m)).
Proof.
  intros Hid Hfirst.
  apply GormRepo_Save_cases in Hfirst as [(_ & -> & -> & _)|(? & _)];
    [|discriminate].
  split; [|now rewrite !GetVersion_Increment].
  unfold GormRepo_Save.
  rewrite (gorm_Save_match _ (IncrementVersion (IncrementVersion m))
             (IncrementVersion m)).
  - now rewrite !GetID_Increment.
  - now rewrite !GetID_Increment.
  - rewrite !GetID_Increment. apply lookup_insert_eq.
Qed.

(** X5.  [Save] touches one row only, and a table whose rows are stored
    under their own ids stays so. *)
Theorem Save_frame (db db' : gmap string A) fault (m m' : A) ok :
  GormRepo_Save db fault m = (db', m', ok) ->
  (forall k, k <> GetID m -> db' !! k = db !! k)
  /\ (keyed db -> keyed db')
  /\ GetID m' = GetID m.
Proof.
  intros Hsave.
  apply GormRepo_Save_cases in Hsave as [(_ & -> & -> & _)|(_ & -> & ->)].
  - split; [|split].
    + intros k Hk. now rewrite lookup_insert_ne.
    + intros Hkeyed k row. destruct (decide (GetID m = k)) as [<-|Hne].
      * rewrite lookup_insert_eq. intros [= <-]. apply GetID_Increment.
      * rewrite lookup_insert_ne by assumption. apply Hkeyed.
    + apply GetID_Increment.
  - split; [auto|]. split; [auto|].
    now rewrite GetID_Decrement, GetID_Increment.
Qed.

End Save.

(** Two dispatchers holding the same copy of the stored item [s5_owned]. *)
Lemma Save_second_writer_loses_witness :
  (GormRepo_Save
     (GormRepo_Save ({[ "s5_owned" := s5_owned ]} : gmap string Item) None
        s5_owned).1.1
     None s5_owned).2 = false.
Proof.
  refine (proj1 (Save_second_writer_loses
                   ({[ "s5_owned" := s5_owned ]} : gmap string Item)
                   _ s5_owned (IncrementVersion s5_owned) s5_owned None
                   _ eq_refl eq_refl)).
  vm_compute. reflexivity.
Defined.

Lemma Save_owner_saves_again_witness :
  GetVersion
    (GormRepo_Save
       (GormRepo_Save (∅ : gmap string Partition) None p1_unowned).1.1
       None (IncrementVersion p1_unowned)).1.2 = 2.
Proof.
  destruct (Save_owner_saves_again (∅ : gmap string Partition) seeded
              p1_unowned (IncrementVersion p1_unowned))
    as [Hsave Hver].
  - discriminate.
  - vm_compute. reflexivity.
  - fold seeded. rewrite Hsave. exact Hver.
Defined.

Lemma Save_frame_witness :
  (GormRepo_Save seeded None p1_owned).1.1 !! "p1_unowned"
  = seeded !! "p1_unowned".
Proof.
  destruct (GormRepo_Save seeded None p1_owned) as [[db' m'] ok] eqn:Hs.
  destruct (Save_frame seeded db' None p1_owned m' ok Hs) as [Hother _].
  apply Hother. discriminate.
Defined.



End RepoMore.

(** ** Leases *)

Module LeaseMore.

Import GoInt GoIntFacts state state_more fixtures RepoFacts RepoMore.

(** A partition a watcher holds as active is no candidate at that instant. *)
Lemma Active_not_candidate (p : Partition) (now : Z) :
  Partition_Active p now = true -> ~ lease_candidate now p.
Proof.
  unfold Partition_Active, Partition_Expired, lease_candidate.
  rewrite andb_true_iff, negb_true_iff, Z.ltb_ge. intros [_ Hu] [_ Hlt]. lia.
Qed.

(** X7.  Once a watcher has saved a partition with its lease stamp, no
    lease query made up to the stamped [until] returns a partition of that
    id, whichever worker asks (the table stores rows under their ids). *)
Theorem lease_held_not_offered (w : Watcher) (db db' : gmap string Partition)
    (fault : option error) (now : Z) (p p' : Partition) :
  keyed db ->
  GormRepo_Save db fault (watch_stamp w now p) = (db', p', true) ->
  forall fault' t q,
    t <= now + LeaseDuration w ->
    q ∈ (GormRepo_GetPotentialLeases db' fault' t).1 ->
    GetID q <> GetID p.
Proof.
  intros Hkeyed Hsave fault' t q Ht Hq Hid.
  pose proof (Save_frame _ _ _ _ _ _ Hsave) as (_ & Hkeyed' & _).
  specialize (Hkeyed' Hkeyed).
  apply GormRepo_Save_cases in Hsave as [(_ & -> & -> & _)|(? & _)];
    [|discriminate].
  destruct fault' as [e|]; [now apply elem_of_nil in Hq|].
  apply GetPotentialLeases_elem in Hq as [[k Hk] [_ Hlt]].
  pose proof (Hkeyed' _ _ Hk) as Hkq. subst k.
  rewrite Hid in Hk.
  change (GetID p) with (GetID (watch_stamp w now p)) in Hk.
  rewrite lookup_insert_eq in Hk. injection Hk as <-.
  simpl in Hlt. lia.
Qed.

Lemma lease_held_not_offered_witness :
  Forall (fun q => GetID q <> GetID p1_owned)
    (GormRepo_GetPotentialLeases
       (GormRepo_Save (∅ : gmap string Partition) None
          (watch_stamp w1 100 p1_owned)).1.1 None 200).1.
Proof.
  apply Forall_forall. intros q.
  refine (lease_held_not_offered w1 ∅ _ None 100 p1_owned
            (IncrementVersion (watch_stamp w1 100 p1_owned)) _ _ None 200 q _).
  - intros k row Hk. now rewrite lookup_empty in Hk.
  - vm_compute. reflexivity.
  - vm_compute. discriminate.
Defined.

(** The fold of [acquireLeases] over the offered partitions, from any
    state of [leases] and of the watchers started so far. *)
Lemma acquire_fold_inv (parts : list Partition) :
  forall (leases : gmap string Partition) (sp : list Partition),
    NoDup (GetID <$> sp) ->
    (forall p, p ∈ sp -> leases !! GetID p = Some p) ->
    NoDup (GetID <$> (fold_left acquire_one parts (leases, sp)).2)
    /\ (forall p, p ∈ (fold_left acquire_one parts (leases, sp)).2 ->
          (fold_left acquire_one parts (leases, sp)).1 !! GetID p = Some p)
    /\ (forall k p, leases !! k = Some p ->
          (fold_left acquire_one parts (leases, sp)).1 !! k = Some p)
    /\ (forall k, is_Some ((fold_left acquire_one parts (leases, sp)).1 !! k)
          <-> is_Some (leases !! k) \/ exists p, p ∈ parts /\ GetID p = k)
    /\ (forall p, p ∈ (fold_left acquire_one parts (leases, sp)).2 ->
          p ∈ sp \/ (p ∈ parts /\ leases !! GetID p = None)).
Proof.
  induction parts as [|q parts IH]; intros leases sp Hnd Hsp.
  { simpl. repeat split; auto.
    - intros [Hk|(p & Hp & _)]; [exact Hk|now apply elem_of_nil in Hp]. }
  change (fold_left acquire_one (q :: parts) (leases, sp))
    with (fold_left acquire_one parts (acquire_one (leases, sp) q)).
  unfold acquire_one at 2 4 6 8 10 12.
  destruct (leases !! GetID q) as [held|] eqn:Hheld.
  - destruct (IH leases sp Hnd Hsp) as (I1 & I2 & I3 & I4 & I5).
    repeat split; auto.
    + intros Hk. apply I4 in Hk as [Hk|(p & Hp & Hpk)]; [now left|].
      right. exists p. split; [now apply list_elem_of_further|exact Hpk].
    + intros [Hk|(p & Hp & Hpk)]; apply I4; [now left|].
      apply elem_of_cons in Hp as [->|Hp].
      * left. rewrite <- Hpk, Hheld. eauto.
      * right. eauto.
    + intros p Hp. destruct (I5 p Hp) as [?|[? ?]]; [now left|].
      right. split; [now apply list_elem_of_further|assumption].
  - assert (Hfresh : forall p, p ∈ sp -> GetID p <> GetID q).
    { intros p Hp Heq. apply Hsp in Hp. rewrite Heq, Hheld in Hp. discriminate. }
    destruct (IH (<[GetID q := q]> leases) (sp ++ [q])) as (I1 & I2 & I3 & I4 & I5).
    + rewrite fmap_app. apply NoDup_app. split; [exact Hnd|]. split.
      * intros k Hk Hq. apply list_elem_of_singleton in Hq as ->.
        apply list_elem_of_fmap in Hk as (p & Hpk & Hp).
        now apply (Hfresh p Hp).
      * apply NoDup_singleton.
    + intros p Hp. apply elem_of_app in Hp as [Hp|Hp].
      * rewrite lookup_insert_ne by (intros Heq; now apply (Hfresh p Hp)).
        now apply Hsp.
      * apply list_elem_of_singleton in Hp as ->. apply lookup_insert_eq.
    + repeat split; auto.
      * intros k p Hk. apply I3. rewrite lookup_insert_ne; [exact Hk|].
        intros <-. rewrite Hheld in Hk. discriminate.
      * intros Hk. apply I4 in Hk as [Hk|(p & Hp & Hpk)].
        -- destruct (decide (GetID q = k)) as [<-|Hne].
           ++ right. exists q. split; [apply list_elem_of_here|reflexivity].
           ++ left. now rewrite lookup_insert_ne in Hk.
        -- right. exists p. split; [now apply list_elem_of_further|exact Hpk].
      * intros [Hk|(p & Hp & Hpk)]; apply I4.
        -- left. destruct (decide (GetID q = k)) as [<-|Hne].
           ++ rewrite lookup_insert_eq. eauto.
           ++ now rewrite lookup_insert_ne.
        -- apply elem_of_cons in Hp as [->|Hp].
           ++ left. rewrite <- Hpk, lookup_insert_eq. eauto.
           ++ right. eauto.
      * intros p Hp. destruct (I5 p Hp) as [Hin|[Hin Hnone]].
        -- apply elem_of_app in Hin as [Hin|Hin]; [now left|].
           apply list_elem_of_singleton in Hin as ->. right.
           split; [apply list_elem_of_here|exact Hheld].
        -- right. split; [now apply list_elem_of_further|].
           destruct (decide (GetID q = GetID p)) as [Heq|Hne].
           ++ rewrite <- Heq, lookup_insert_eq in Hnone. discriminate.
           ++ now rewrite lookup_insert_ne in Hnone.
Qed.


End LeaseMore.

(** ** Queries *)

Module QueryMore.

Import GoInt state state_more fixtures RepoFacts.

Lemma prefix_comparable (s : string) : forall a b,
  String.prefix a s = true -> String.prefix b s = true ->
  String.prefix a b = true \/ String.prefix b a = true.
Proof.
  induction s as [|c s IH]; intros [|x a] [|y b]; simpl; auto; try discriminate.
  destruct (Ascii.ascii_dec x c) as [->|]; [|discriminate].
  destruct (Ascii.ascii_dec y c) as [->|]; [|discriminate].
  destruct (Ascii.ascii_dec c c) as [_|Hne]; [|contradiction]. apply IH.
Qed.

(** X9.  [FairRepo] offers exactly the lease candidates whose id starts with
    its owner, passes a database error on with no partition, and two
    [FairRepo]s whose owners do not start with one another never offer the
    same partition. *)
Theorem FairRepo_fair (owner : string) (db : gmap string Partition) (now : Z) :
  (forall p,
      p ∈ (FairRepo_GetPotentialLeases owner db None now).1
      <-> p ∈ (GormRepo_GetPotentialLeases db None now).1
          /\ HasPrefix (GetID p) owner = true)
  /\ (forall e, FairRepo_GetPotentialLeases owner db (Some e) now = ([], Some e))
  /\ (forall other fault fault' p,
         HasPrefix owner other = false ->
         HasPrefix other owner = false ->
         p ∈ (FairRepo_GetPotentialLeases owner db fault now).1 ->
         p ∉ (FairRepo_GetPotentialLeases other db fault' now).1).
Proof.
  assert (Hin : forall o fault p,
    p ∈ (FairRepo_GetPotentialLeases o db fault now).1 ->
    HasPrefix (GetID p) o = true).
  { intros o [e|] p; unfold FairRepo_GetPotentialLeases; simpl.
    - intros Hp. now apply elem_of_nil in Hp.
    - rewrite list_elem_of_filter. tauto. }
  split; [|split].
  - intros p. unfold FairRepo_GetPotentialLeases. simpl.
    rewrite list_elem_of_filter. tauto.
  - reflexivity.
  - intros other fault fault' p Ho1 Ho2 Hp Hp'.
    apply Hin in Hp, Hp'. unfold HasPrefix in *.
    destruct (prefix_comparable _ _ _ Hp Hp') as [H|H]; congruence.
Qed.

(** The two repositories of [TestWatcher] on the seeded table. *)
Lemma FairRepo_fair_witness :
  Forall (fun p => p ∉ (FairRepo_GetPotentialLeases "p2" seeded None 1).1)
         (FairRepo_GetPotentialLeases "p1" seeded None 1).1.
Proof.
  apply Forall_forall. intros p.
  apply (proj2 (proj2 (FairRepo_fair "p1" seeded 1)) "p2" None None p);
    reflexivity.
Defined.

Lemma GetCountByStatus_spec (db : gmap string Item) (id : string) :
  (exists counts,
      GormRepo_GetCountByStatus db None id = inl counts
      /\ forall s,
           count_of counts s
           = Z.of_nat (length (filter (fun i => PartitionID i = id
                                                /\ Item_Status i = s)
                                      (map_to_list db).*2))
           /\ (counts !! s = None
               <-> forall i k, db !! k = Some i -> PartitionID i = id ->
                               Item_Status i <> s))
  /\ (forall e, GormRepo_GetCountByStatus db (Some e) id = inr e).
Proof.
  split; [|reflexivity].
  eexists. split; [reflexivity|]. intros s.
  assert (Hnone : items_with db id s = [] <->
    forall i k, db !! k = Some i -> PartitionID i = id -> Item_Status i <> s).
  { unfold items_with. split.
    - intros Hnil i k Hk Hid Hs.
      assert (Hin : i ∈ filter (fun i => PartitionID i = id /\ Item_Status i = s)
                                (map_to_list db).*2).
      { apply list_elem_of_filter. split; [auto|].
        apply list_elem_of_fmap. exists (k, i). split; [reflexivity|].
        now apply elem_of_map_to_list. }
      rewrite Hnil in Hin. now apply elem_of_nil in Hin.
    - intros Hall.
      destruct (filter _ _) as [|i l] eqn:Hf; [reflexivity|]. exfalso.
      assert (Hin : i ∈ filter (fun i => PartitionID i = id /\ Item_Status i = s)
                                (map_to_list db).*2)
        by (rewrite Hf; apply list_elem_of_here).
      apply list_elem_of_filter in Hin as [[Hid Hs] Hin].
      apply list_elem_of_fmap in Hin as ([k j] & -> & Hin).
      apply elem_of_map_to_list in Hin. exact (Hall _ _ Hin Hid Hs). }
  rewrite <- Hnone.
  change (filter (fun i => PartitionID i = id /\ Item_Status i = s)
                 (map_to_list db).*2) with (items_with db id s).
  unfold count_rows, count_of. simpl.
  destruct (items_with db id Unknown) as [|? ?] eqn:HU;
    destruct (items_with db id Available) as [|? ?] eqn:HA;
    destruct (items_with db id Complete) as [|? ?] eqn:HC;
    destruct (items_with db id Failed) as [|? ?] eqn:HF;
    destruct s; rewrite ?HU, ?HA, ?HC, ?HF;
    vm_compute scan_rows; simplify_map_eq;
    (split; [reflexivity|split; intros; discriminate || reflexivity]).
Qed.


(** A status some item of the partition has is counted at least once; a
    status none has is counted zero. *)
Lemma count_of_positive (db : gmap string Item) (id : string)
    (counts : gmap Status Z) (s : Status) :
  GormRepo_GetCountByStatus db None id = inl counts ->
  ((exists i k, db !! k = Some i /\ PartitionID i = id /\ Item_Status i = s)
   -> count_of counts s > 0)
  /\ ((forall i k, db !! k = Some i -> PartitionID i = id -> Item_Status i <> s)
      -> count_of counts s = 0).
Proof.
  intros Hc.
  destruct (GetCountByStatus_spec db id) as [(counts' & Hc' & Hspec) _].
  rewrite Hc in Hc'. injection Hc' as <-.
  destruct (Hspec s) as [Hcount Hnone]. split.
  - intros (i & k & Hk & Hid & Hs).
    destruct (counts !! s) as [n|] eqn:Hn.
    + rewrite Hcount.
      destruct (filter _ _) as [|j l] eqn:Hf; [|simpl; lia].
      exfalso.
      assert (Hin : i ∈ filter (fun i => PartitionID i = id /\ Item_Status i = s)
                                (map_to_list db).*2).
      { apply list_elem_of_filter. split; [auto|].
        apply list_elem_of_fmap. exists (k, i). split; [reflexivity|].
        now apply elem_of_map_to_list. }
      rewrite Hf in Hin. now apply elem_of_nil in Hin.
    + exfalso. exact (proj1 Hnone eq_refl i k Hk Hid Hs).
  - intros Hall. apply Hnone in Hall. unfold count_of. now rewrite Hall.
Qed.

End QueryMore.

(** ** More on the watcher *)

Module WatcherMore.

Import GoInt GoIntFacts state state_more fixtures RepoFacts RepoMore
       WatcherFacts QueryMore.

Lemma watch_update_keeps (w : Watcher) (p : Partition) (items : list Item)
    (counts : gmap Status Z) :
  Partition_Base (watch_update w p items counts) = Partition_Base p
  /\ (ManualCheckpoint w = true -> Gate (watch_update w p items counts) = Gate p)
  /\ (AutoClose w = false -> Partition_Status p <> Complete ->
      Partition_Status (watch_update w p items counts) <> Complete).
Proof.
  unfold watch_update.
  destruct (count_of counts Failed >? 0); [now repeat split|].
  destruct (count_of counts Available >? 0).
  - destruct ((length items =? 0)%nat); destruct (ManualCheckpoint w); simpl;
      repeat split; intros; discriminate || reflexivity.
  - destruct ((length items =? 0)%nat); destruct (AutoClose w); simpl;
      repeat split; intros; discriminate || auto.
Qed.

(** What a pass leaves behind, whichever way it ends. *)
Lemma watch_body_inv (w : Watcher) (db db' : gmap string Partition)
    (p p' : Partition) (env : tick_env) (o : body_outcome) :
  watch_body w db p env = (db', p', o) ->
  GetID p' = GetID p
  /\ (forall items, o = Enqueued items ->
        fetched env = inl items
        /\ db' !! GetID p = Some p'
        /\ Owner p' = OwnerID w
        /\ Until p' = now_stamp env + LeaseDuration w)
  /\ (ManualCheckpoint w = true -> Gate p' = Gate p)
  /\ (AutoClose w = false -> Partition_Status p <> Complete ->
      Partition_Status p' <> Complete).
Proof.
  unfold watch_body.
  destruct (fetched env) as [items|e];
    [|intros [= <- <- <-]; repeat split; auto; discriminate].
  destruct (counted env) as [counts|e];
    [|intros [= <- <- <-]; repeat split; auto; discriminate].
  destruct (watch_update_keeps w p items counts) as (Hbase & Hgate & Hst).
  destruct (GormRepo_Save db (save_fault env)
              (watch_stamp w (now_stamp env) (watch_update w p items counts)))
    as [[db1 p1] ok] eqn:Hsave.
  pose proof (Save_Partition_fields _ _ _ _ _ _ Hsave)
    as (Hid & HG & HS & HO & HU).
  assert (Hidp : GetID p1 = GetID p).
  { rewrite Hid. simpl. now rewrite Hbase. }
  assert (Hrest : (ManualCheckpoint w = true -> Gate p1 = Gate p)
                  /\ (AutoClose w = false -> Partition_Status p <> Complete ->
                      Partition_Status p1 <> Complete)).
  { split.
    - intros Hm. rewrite HG. simpl. auto.
    - intros Ha Hp. rewrite HS. simpl. auto. }
  destruct ok; simpl.
  - destruct (Partition_InActive p1 (now_check env));
      intros [= <- <- <-]; (split; [exact Hidp|split; [|exact Hrest]]);
      intros items' [= <-].
    apply GormRepo_Save_cases in Hsave as [(_ & -> & -> & _)|(? & _)];
      [|discriminate].
    repeat split.
    change (GetID (watch_stamp w (now_stamp env) (watch_update w p items counts)))
      with (ID (Partition_Base (watch_update w p items counts))).
    rewrite Hbase. apply lookup_insert_eq.
  - intros [= <- <- <-]. split; [exact Hidp|split; [|exact Hrest]].
    intros items' [=].
Qed.

(** A property of the partition that every pass keeps holds of the
    partition the goroutine ends or stands with. *)
Lemma watchPartition_keeps (w : Watcher) (leases : gmap string Partition)
    (I : Partition -> Prop) :
  (forall db p env db' p' o,
      I p -> watch_body w db p env = (db', p', o) -> I p') ->
  forall envs db p sent,
    I p -> I (ws_partition (watchPartition w db leases p sent envs)).
Proof.
  intros Hstep. induction envs as [|env envs IH]; intros db p sent Hp; simpl.
  { exact Hp. }
  destruct (watch_body w db p env) as [[db' p'] o] eqn:Hbody.
  pose proof (Hstep _ _ _ _ _ _ Hp Hbody) as Hp'.
  destruct o as [|items]; [exact Hp'|].
  destruct (wakeup env); [now apply IH|exact Hp'].
Qed.

(** X11.  However many passes a watcher goroutine makes and however it
    ends, the partition keeps its id; while the goroutine is in its loop
    the [leases] map is as it found it, and once it has returned (on a query
    error, a failed save, an inactive partition or a cancelled context) the
    partition's id is gone from [leases]. *)
Theorem watchPartition_leases (w : Watcher) (leases : gmap string Partition)
    (envs : list tick_env) :
  forall db p sent,
    GetID (ws_partition (watchPartition w db leases p sent envs)) = GetID p
    /\ (ws_running (watchPartition w db leases p sent envs) = true ->
        ws_leases (watchPartition w db leases p sent envs) = leases)
    /\ (ws_running (watchPartition w db leases p sent envs) = false ->
        ws_leases (watchPartition w db leases p sent envs)
        = delete (GetID p) leases).
Proof.
  induction envs as [|env envs IH]; intros db p sent.
  { simpl. repeat split; auto; discriminate. }
  change (watchPartition w db leases p sent (env :: envs))
    with (match watch_body w db p env with
          | (db, p', Returned) =>
              mkWatchState db (delete (GetID p') leases) p' sent false
          | (db, p', Enqueued items) =>
              match wakeup env with
              | TickerFired => watchPartition w db leases p' (sent ++ items) envs
              | ContextDone =>
                  mkWatchState db (delete (GetID p') leases) p' (sent ++ items)
                               false
              end
          end).
  destruct (watch_body w db p env) as [[db' p'] o] eqn:Hbody.
  apply watch_body_inv in Hbody as (Hid & _).
  destruct o as [|items].
  - cbn [ws_partition ws_running ws_leases]. rewrite Hid.
    repeat split; auto; discriminate.
  - destruct (wakeup env).
    + destruct (IH db' p' (sent ++ items)) as (I1 & I2 & I3).
      rewrite <- Hid. repeat split; auto.
    + cbn [ws_partition ws_running ws_leases]. rewrite Hid.
      repeat split; auto; discriminate.
Qed.


(** X13.  After at least one pass, a watcher that is still in its loop
    holds the partition exactly as the table stores it under its id, with
    itself as owner. *)
Theorem watchPartition_owns (w : Watcher) (leases : gmap string Partition)
    (envs : list tick_env) :
  forall db p sent,
    envs <> [] ->
    ws_running (watchPartition w db leases p sent envs) = true ->
    ws_db (watchPartition w db leases p sent envs) !! GetID p
    = Some (ws_partition (watchPartition w db leases p sent envs))
    /\ Owner (ws_partition (watchPartition w db leases p sent envs))
       = OwnerID w.
Proof.
  assert (Hgen : forall envs db p sent,
    (db !! GetID p = Some p /\ Owner p = OwnerID w) \/ envs <> [] ->
    ws_running (watchPartition w db leases p sent envs) = true ->
    ws_db (watchPartition w db leases p sent envs) !! GetID p
    = Some (ws_partition (watchPartition w db leases p sent envs))
    /\ Owner (ws_partition (watchPartition w db leases p sent envs))
       = OwnerID w).
  { clear envs. induction envs as [|env envs IH]; intros db p sent Hstart.
    { destruct Hstart as [Hheld|Hne]; [|contradiction]. now simpl. }
    change (watchPartition w db leases p sent (env :: envs))
      with (match watch_body w db p env with
            | (db, p', Returned) =>
                mkWatchState db (delete (GetID p') leases) p' sent false
            | (db, p', Enqueued items) =>
                match wakeup env with
                | TickerFired =>
                    watchPartition w db leases p' (sent ++ items) envs
                | ContextDone =>
                    mkWatchState db (delete (GetID p') leases) p'
                                 (sent ++ items) false
                end
            end).
    destruct (watch_body w db p env) as [[db' p'] o] eqn:Hbody.
    apply watch_body_inv in Hbody as (Hid & Hfetch & _).
    destruct o as [|items]; [discriminate|].
    destruct (wakeup env); [|discriminate].
    destruct (Hfetch items eq_refl) as (_ & Hstored & Howner & _).
    rewrite <- Hid. apply IH. left. now rewrite Hid. }
  intros db p sent Hne. apply Hgen. now right.
Qed.

Lemma watchPartition_owns_witness :
  Owner (ws_partition (watchPartition w1 ∅ ∅ p1_owned [] [env1])) = "p1".
Proof.
  refine (proj2 (watchPartition_owns w1 ∅ [env1] ∅ p1_owned [] _ _)).
  - discriminate.
  - vm_compute. reflexivity.
Defined.

(** X14.  With [ManualCheckpoint] set, no run of a watcher changes the
    partition's gate; with [AutoClose] unset, no run of a watcher makes a
    partition [Complete] that was not. *)
Theorem watchPartition_manual_modes (w : Watcher)
    (leases : gmap string Partition) (envs : list tick_env)
    (db : gmap string Partition) (p : Partition) (sent : list Item) :
  (ManualCheckpoint w = true ->
   Gate (ws_partition (watchPartition w db leases p sent envs)) = Gate p)
  /\ (AutoClose w = false -> Partition_Status p <> Complete ->
      Partition_Status (ws_partition (watchPartition w db leases p sent envs))
      <> Complete).
Proof.
  split.
  - intros Hm.
    apply (watchPartition_keeps w leases (fun q => Gate q = Gate p));
      [|reflexivity].
    intros db0 p0 env db' p' o Hp0 Hbody.
    apply watch_body_inv in Hbody as (_ & _ & Hg & _). now rewrite Hg.
  - intros Ha Hp.
    apply (watchPartition_keeps w leases
             (fun q => Partition_Status q <> Complete)); [|exact Hp].
    intros db0 p0 env db' p' o Hp0 Hbody.
    apply watch_body_inv in Hbody as (_ & _ & _ & Hs). now apply Hs.
Qed.

(** X15.  With the counts [GetCountByStatus] reads off the items table: a
    partition one of whose items is [Failed] gets the status [Failed]; a
    partition none of whose items is [Failed] or [Available] (it may have
    no item at all) is made [Complete] when nothing was fetched and
    [AutoClose] is set, and is otherwise left as it is. *)
Theorem watch_update_from_table (w : Watcher) (p : Partition)
    (items : list Item) (db : gmap string Item) (counts : gmap Status Z) :
  GormRepo_GetCountByStatus db None (GetID p) = inl counts ->
  ((exists i k, db !! k = Some i /\ PartitionID i = GetID p
                /\ Item_Status i = Failed) ->
   Partition_Status (watch_update w p items counts) = Failed)
  /\ ((forall i k, db !! k = Some i -> PartitionID i = GetID p ->
                   Item_Status i <> Failed /\ Item_Status i <> Available) ->
      (items = [] -> AutoClose w = true ->
       watch_update w p items counts = Partition_set_Status Complete p)
      /\ (items <> [] \/ AutoClose w = false ->
          watch_update w p items counts = p)).
Proof.
  intros Hc.
  destruct (count_of_positive db (GetID p) counts Failed Hc) as [HFpos HFzero].
  destruct (count_of_positive db (GetID p) counts Available Hc) as [_ HAzero].
  split.
  - intros Hex. apply HFpos in Hex. unfold watch_update.
    replace (count_of counts Failed >? 0) with true
      by (symmetry; apply Z.gtb_gt; lia).
    reflexivity.
  - intros Hall. unfold watch_update.
    rewrite HFzero by (intros i k Hk Hid; exact (proj1 (Hall i k Hk Hid))).
    rewrite HAzero by (intros i k Hk Hid; exact (proj2 (Hall i k Hk Hid))).
    simpl.
    destruct items as [|i items]; destruct (AutoClose w); simpl; split; intros;
      try first [reflexivity | congruence | now destruct p
                | intuition congruence].
Qed.

(** A partition without items, nothing fetched, [AutoClose] set. *)
Lemma watch_update_from_table_witness :
  watch_update w1 p1_owned [] (scan_rows (count_rows ∅ (GetID p1_owned)))
  = Partition_set_Status Complete p1_owned.
Proof.
  refine (proj1 (proj2 (watch_update_from_table w1 p1_owned [] ∅ _ eq_refl) _)
            eq_refl eq_refl).
  intros i k Hk. now rewrite lookup_empty in Hk.
Defined.

(** *** [Start] *)



(** *** The goroutines of a worker *)

Lemma worker_step_pool (s s' : worker) :
  worker_step s s' -> length (dispatchers s') = length (dispatchers s).
Proof.
  destruct 1; simpl; auto; now rewrite length_insert.
Qed.

Lemma reachable_pool (q : chan) (w : Watcher) (s : worker) :
  chan_buf q = [] -> 0 <= chan_cap q ->
  rtc worker_step (worker_init q w) s ->
  length (dispatchers s) = Z.to_nat (BatchSize w)
  /\ chan_cap (itemQ s) = chan_cap q
  /\ 0 <= chan_len (itemQ s) <= chan_cap q.
Proof.
  intros Hbuf Hcap. revert s. apply rtc_ind_r.
  - unfold worker_init, chan_len. simpl. rewrite length_replicate, Hbuf.
    simpl. lia.
  - intros s1 s2 _ Hstep (Hpool & Hc & Hlen).
    pose proof (worker_step_pool _ _ Hstep) as Hp.
    apply worker_step_bounded in Hstep as [Hc' Hkeep].
    split; [congruence|]. split; [congruence|].
    split; [unfold chan_len; lia|].
    rewrite <- Hc, <- Hc'. apply Hkeep. lia.
Qed.



(** *** [Watcher.Healthcheck] *)


End WatcherMore.

(** ** More on items and their dispatch *)

Module DispatchMore.

Import GoInt GoIntFacts state state_more fixtures RepoFacts RepoMore ItemFacts.

(** X19.  Failures only add to an item: whatever run of errors it goes
    through, the messages logged so far stay the beginning of the log, an
    item that is [Failed] stays [Failed], and neither its base model, its
    partition, its gate nor its data change. *)
Theorem Item_errors_only_add (MaxRetries : Z) (errs : list error) :
  forall i,
    (exists more,
        ErrorMessages (Item_errors MaxRetries i errs) = ErrorMessages i +:+ more)
    /\ (Item_Status i = Failed ->
        Item_Status (Item_errors MaxRetries i errs) = Failed)
    /\ Item_Base (Item_errors MaxRetries i errs) = Item_Base i
    /\ PartitionID (Item_errors MaxRetries i errs) = PartitionID i
    /\ Item_Gate (Item_errors MaxRetries i errs) = Item_Gate i
    /\ Data (Item_errors MaxRetries i errs) = Data i.
Proof.
  induction errs as [|e errs IH]; intros i.
  { simpl. split; [|now repeat split].
    exists EmptyString. symmetry. apply HttpFacts.append_nil_r. }
  change (Item_errors MaxRetries i (e :: errs))
    with (Item_errors MaxRetries (Item_error MaxRetries i e) errs).
  destruct (IH (Item_error MaxRetries i e)) as ([more Hmore] & Hfail & Hrest).
  split; [|split; [|exact Hrest]].
  - rewrite Hmore. unfold Item_error at 1. cbn [ErrorMessages].
    case_decide as Hempty.
    + rewrite Hempty. eexists. reflexivity.
    + case_decide as Hsame.
      * unfold Sprintf_lines. rewrite <- !HttpFacts.append_assoc.
        eexists. reflexivity.
      * eexists. reflexivity.
  - intros Hf. apply Hfail. rewrite Item_error_status, Hf.
    now destruct (negb (IsRetryable e) || _).
Qed.

Section Dispatch.

Variable MaxRetries : Z.
Variable Process : string -> list Byte.byte -> ProcessorResponse + error.

Lemma processItem_body_success (i : Item) (resp : ProcessorResponse) :
  Process (GetID i) (Data i) = inl resp ->
  processItem_body MaxRetries Process i
  = mkItem (Item_Base i) (RetryCount i) (PartitionID i) (NextGate resp)
           (if Resp_Complete resp then Complete else Item_Status i)
           (ErrorMessages i) (Resp_Data resp).
Proof.
  intros Hresp. unfold processItem_body. rewrite Hresp.
  now destruct (Resp_Complete resp).
Qed.

(** X20.  When the processor answers and the stored row still has the
    item's version (the id is not empty, the database does not fail),
    [processItem] stores and returns the item with the response's gate and
    data, [Complete] exactly when the response says so and with its status
    untouched otherwise, the version raised once, and the retry count and
    logged messages as they were. *)
Theorem processItem_success (db : gmap string Item) (i row : Item)
    (resp : ProcessorResponse) :
  Process (GetID i) (Data i) = inl resp ->
  GetID i <> EmptyString ->
  db !! GetID i = Some row ->
  GetVersion row = GetVersion i ->
  Watcher_processItem MaxRetries Process db None i
  = (<[GetID i :=
        mkItem (BaseModel_IncrementVersion (Item_Base i)) (RetryCount i)
               (PartitionID i) (NextGate resp)
               (if Resp_Complete resp then Complete else Item_Status i)
               (ErrorMessages i) (Resp_Data resp)]> db,
     mkItem (BaseModel_IncrementVersion (Item_Base i)) (RetryCount i)
            (PartitionID i) (NextGate resp)
            (if Resp_Complete resp then Complete else Item_Status i)
            (ErrorMessages i) (Resp_Data resp),
     true).
Proof.
  intros Hresp Hid Hrow Hver.
  unfold Watcher_processItem, GormRepo_Save.
  rewrite (processItem_body_success i resp Hresp).
  change (GetVersion (mkItem (Item_Base i) (RetryCount i) (PartitionID i)
                             (NextGate resp)
                             (if Resp_Complete resp then Complete
                              else Item_Status i)
                             (ErrorMessages i) (Resp_Data resp)))
    with (GetVersion i).
  rewrite <- Hver.
  rewrite (gorm_Save_match db _ row); [reflexivity|exact Hid|exact Hrow].
Qed.

(** X21.  A dispatcher working on a copy of an item whose stored row has
    moved to another version cannot write: whatever the processor answered,
    the save of [processItem] returns false and the table is unchanged. *)
Theorem processItem_stale (db : gmap string Item) (fault : option error)
    (i row : Item) :
  db !! GetID i = Some row ->
  GetVersion row <> GetVersion i ->
  (Watcher_processItem MaxRetries Process db fault i).2 = false
  /\ (Watcher_processItem MaxRetries Process db fault i).1.1 = db.
Proof.
  intros Hrow Hver.
  assert (Hbase : Item_Base (processItem_body MaxRetries Process i) = Item_Base i).
  { unfold processItem_body. destruct (Process _ _) as [resp|err].
    - now destruct (Resp_Complete resp).
    - reflexivity. }
  unfold Watcher_processItem, GormRepo_Save.
  set (j := processItem_body MaxRetries Process i) in *.
  destruct (gorm_Save_stale db (GetVersion j) (IncrementVersion j) row fault)
    as [e He].
  - rewrite GetID_Increment. simpl. now rewrite Hbase.
  - simpl. now rewrite Hbase.
  - now rewrite He.
Qed.

End Dispatch.

(** The backend of the spec's round trip: the payload returned as it came,
    at gate 1, not complete. *)
Lemma processItem_success_witness :
  (Watcher_processItem 3 (fun _ data => inl (mkProcessorResponse 1 false data))
     ({[ "s5_owned" := s5_owned ]} : gmap string Item) None s5_owned).1.2
  = mkItem (mkBaseModel "s5_owned" 2) 0 "p1_owned" 1 Available EmptyString [].
Proof.
  rewrite (processItem_success 3 _ ({[ "s5_owned" := s5_owned ]}) s5_owned
             s5_owned (mkProcessorResponse 1 false []) eq_refl).
  - reflexivity.
  - discriminate.
  - vm_compute. reflexivity.
  - reflexivity.
Defined.

Lemma processItem_stale_witness :
  (Watcher_processItem 3 (fun _ data => inl (mkProcessorResponse 1 false data))
     ({[ "s5_owned" := IncrementVersion s5_owned ]} : gmap string Item)
     None s5_owned).2 = false.
Proof.
  refine (proj1 (processItem_stale 3 _ _ None s5_owned
                   (IncrementVersion s5_owned) _ _)).
  - vm_compute. reflexivity.
  - vm_compute. discriminate.
Defined.

End DispatchMore.

(** ** More on the HTTP processor *)

(** The client of [processor_test.go] answering 200, with a decoder that
    reads an envelope at gate 1 and an encoder of the empty object. *)
Definition mock_200 : httprocessor.HTTPClient :=
  httprocessor.mkHTTPClient
    (fun _ _ _ => (Some (httprocessor.mkResponse 200 "HTTP 200" []), None))
    (fun _ => (None, None)).

Definition decode_good (_ : list Byte.byte) : httprocessor.decoded unit :=
  httprocessor.Decoded unit (httprocessor.mkEnvelope unit 1 false None None).

Definition encode_empty (_ : unit) : list Byte.byte + string := inl [].

Module HttpMore.

Import httprocessor fixtures.

Section Codec.

Variable json_object : Type.
Variable empty_object : json_object.
Variable json_decode : list Byte.byte -> decoded json_object.
Variable json_encode : json_object -> list Byte.byte + string.

(** X22.  [Process] answers with a response only for a POST that brought
    back a status code from 200 to 299 and a body decoding to an envelope
    without [error]; the response then carries the envelope's gate and
    completion flag, and as data the encoding of the envelope's [response]
    object, or of the empty object when there is none. *)
Theorem Process_success_sound (h : Processor) (buf : list Byte.byte)
    (r : state.ProcessorResponse) :
  Process json_object empty_object json_decode json_encode h buf
  = Returns (inl r) ->
  exists resp env,
    Post (Client h) (Target h) "application/json" buf = (Some resp, None)
    /\ json_decode (Body resp) = Decoded json_object env
    /\ Error json_object env = None
    /\ 200 <= StatusCode resp <= 299
    /\ state.NextGate r = NextGate json_object env
    /\ state.Resp_Complete r = Complete json_object env
    /\ json_encode (default empty_object (Data json_object env))
       = inl (state.Resp_Data r).
Proof.
  unfold Process.
  destruct (Post (Client h) (Target h) "application/json" buf)
    as [[resp|] [e|]]; try discriminate.
  destruct (json_decode (Body resp)) as [msg|env] eqn:Hdec; [discriminate|].
  destruct (Error json_object env) as [pe|] eqn:Herr; [discriminate|].
  destruct ((StatusCode resp <? 200) || (StatusCode resp >=? 300)) eqn:Hcode;
    [discriminate|].
  apply orb_false_iff in Hcode as [Hlo Hhi].
  apply Z.ltb_ge in Hlo. rewrite Z.geb_leb, Z.leb_gt in Hhi.
  unfold procResponse, GetData.
  destruct (Data json_object env) as [d|] eqn:Hdata;
    (destruct (json_encode _) as [bytes|msg] eqn:Henc; [|discriminate]);
    intros [= <-]; exists resp, env; simpl; rewrite ?Hdata; simpl;
    repeat split; auto; lia.
Qed.

(** X23.  When the POST fails, [Process] returns the client's error as it
    is, looking at no response; and it panics exactly when the client
    returns neither a response nor an error. *)
Theorem Process_transport (h : Processor) (buf : list Byte.byte) :
  (forall resp e,
      Post (Client h) (Target h) "application/json" buf = (resp, Some e) ->
      Process json_object empty_object json_decode json_encode h buf
      = Returns (inr e))
  /\ (Process json_object empty_object json_decode json_encode h buf = Panics
      <-> Post (Client h) (Target h) "application/json" buf = (None, None)).
Proof.
  unfold Process. split.
  - intros resp e ->. now destruct resp.
  - destruct (Post (Client h) (Target h) "application/json" buf)
      as [[resp|] [e|]]; split; try discriminate; try reflexivity.
    destruct (json_decode (Body resp)) as [msg|env]; [discriminate|].
    destruct (Error json_object env); [discriminate|].
    destruct ((StatusCode resp <? 200) || (StatusCode resp >=? 300));
      discriminate.
Qed.

(** X24.  An item dispatched through the HTTP processor whose answer is an
    envelope with an [error] marked [no_retry] is [Failed] when
    [processItem] saves it, whatever [MaxRetries], its retry count and the
    status code; its gate and data are untouched and the message logged is
    the one built from the status and the envelope. *)
Theorem no_retry_fails_item (MaxRetries : Z) (h : Processor)
    (P : string -> list Byte.byte -> state.ProcessorResponse + state.error)
    (i : state.Item) (resp : Response) (env : response json_object)
    (e : processorError) :
  Process json_object empty_object json_decode json_encode h (state.Data i)
  = Returns (P (state.GetID i) (state.Data i)) ->
  Post (Client h) (Target h) "application/json" (state.Data i)
  = (Some resp, None) ->
  json_decode (Body resp) = Decoded json_object env ->
  Error json_object env = Some e ->
  NoRetry e = true ->
  state.Item_Status (state.processItem_body MaxRetries P i) = state.Failed
  /\ state.Item_Gate (state.processItem_body MaxRetries P i) = state.Item_Gate i
  /\ state.Data (state.processItem_body MaxRetries P i) = state.Data i
  /\ (state.ErrorMessages i = EmptyString ->
      state.ErrorMessages (state.processItem_body MaxRetries P i)
      = "Status " +:+ Status resp +:+ "; message: " +:+ Message e).
Proof.
  intros Hproc Hpost Hdec Herr Hnr.
  unfold Process in Hproc. rewrite Hpost, Hdec, Herr, Hnr in Hproc.
  injection Hproc as Hproc.
  unfold state.processItem_body.
  change (state.GetID i) with (state.ID (state.Item_Base i)).
  rewrite <- Hproc.
  repeat split. intros Hempty.
  unfold state.Item_error. cbn [state.ErrorMessages]. rewrite Hempty.
  now case_decide.
Qed.

End Codec.

(** The "good request" of [TestProcess]: status 200, gate 1. *)
Lemma Process_success_sound_witness :
  exists resp env,
    Post mock_200 EmptyString "application/json" [] = (Some resp, None)
    /\ decode_good (Body resp) = Decoded unit env
    /\ Error unit env = None
    /\ 200 <= StatusCode resp <= 299
    /\ state.NextGate (state.mkProcessorResponse 1 false []) = NextGate unit env
    /\ state.Resp_Complete (state.mkProcessorResponse 1 false [])
       = Complete unit env
    /\ encode_empty (default tt (Data unit env))
       = inl (state.Resp_Data (state.mkProcessorResponse 1 false [])).
Proof.
  exact (Process_success_sound unit tt decode_good encode_empty
           (mkProcessor mock_200 EmptyString EmptyString) []
           (state.mkProcessorResponse 1 false []) eq_refl).
Defined.

Lemma no_retry_fails_item_witness :
  state.Item_Status
    (state.processItem_body 5
       (fun _ _ => inr (state.NonRetryableError
                          "Status HTTP 500; message: additional error context"))
       s5_owned)
  = state.Failed.
Proof.
  exact (proj1 (no_retry_fails_item unit tt
                  (fun _ => Decoded unit no_retry_envelope) (fun _ => inl [])
                  5 (mkProcessor mock_500 EmptyString EmptyString)
                  (fun _ _ => inr (state.NonRetryableError
                     "Status HTTP 500; message: additional error context"))
                  s5_owned (mkResponse 500 "HTTP 500" []) no_retry_envelope
                  (mkProcessorError "additional error context" true)
                  eq_refl eq_refl eq_refl eq_refl eq_refl)).
Defined.

End HttpMore.

(** ** The log-level flag *)

Module CmdFacts.

Import cmd.

Lemma gormValues_lookup (v : string) :
  (v = "silent" /\ gormValues !! v = Some logger_Silent)
  \/ (v = "error" /\ gormValues !! v = Some logger_Error)
  \/ (v = "warn" /\ gormValues !! v = Some logger_Warn)
  \/ (v = "info" /\ gormValues !! v = Some logger_Info)
  \/ ((v ∉ ["silent"; "error"; "warn"; "info"]) /\ gormValues !! v = None).
Proof.
  destruct (decide (v = "silent")) as [->|H1]; [left; now split|].
  destruct (decide (v = "error")) as [->|H2]; [right; left; now split|].
  destruct (decide (v = "warn")) as [->|H3]; [right; right; left; now split|].
  destruct (decide (v = "info")) as [->|H4];
    [right; right; right; left; now split|].
  right; right; right; right. split.
  - rewrite !elem_of_cons, elem_of_nil. tauto.
  - unfold gormValues.
    rewrite !lookup_insert_ne by congruence.
    now rewrite lookup_singleton_ne by congruence.
Qed.

(** X25.  [Set] accepts exactly the four names silent, error, warn and info
    (in lower case); after an accepted value [String] gives that value back
    and the level is the one the name stands for; a refused value leaves the
    flag as it was and is named in the error. *)
Theorem gormLogFlag_Set_accepts (g : gormLogFlag) (v : string) :
  ((gormLogFlag_Set g v).2 = None
   <-> v ∈ ["silent"; "error"; "warn"; "info"])
  /\ ((gormLogFlag_Set g v).2 = None ->
      gormLogFlag_String (gormLogFlag_Set g v).1 = v
      /\ gormValues !! v = Some (level (gormLogFlag_Set g v).1))
  /\ (v ∉ ["silent"; "error"; "warn"; "info"] ->
      gormLogFlag_Set g v
      = (g, Some (state.errorString ("unknown gorm log level: " +:+ v))))
  /\ level (gormLogFlag_Set g "silent").1 = logger_Silent
  /\ level (gormLogFlag_Set g "error").1 = logger_Error
  /\ level (gormLogFlag_Set g "warn").1 = logger_Warn
  /\ level (gormLogFlag_Set g "info").1 = logger_Info.
Proof.
  unfold gormLogFlag_Set.
  split; [|split; [|split; [|now repeat split]]].
  - destruct (gormValues_lookup v)
      as [[-> ->]|[[-> ->]|[[-> ->]|[[-> ->]|[Hout ->]]]]]; simpl;
      try (split; [intros _; rewrite !elem_of_cons; tauto|reflexivity]).
    split; [discriminate|intros Hin; contradiction].
  - destruct (gormValues !! v) as [l|] eqn:Hl; simpl; [auto|discriminate].
  - intros Hout.
    destruct (gormValues_lookup v)
      as [[-> _]|[[-> _]|[[-> _]|[[-> _]|[_ ->]]]]];
      try reflexivity; exfalso; apply Hout;
      rewrite !elem_of_cons; tauto.
Qed.

End CmdFacts.
